(** * CYBERFORGE: credential store, key rotation and the retrying executor

    A shallow embedding of [src/services/apiKeyManager.ts] and of the
    retry machinery of [src/services/geminiService.ts], followed by the
    properties of the specification that were checked against it.
    Further sections embed the handlers of the key manager dialog
    ([src/components/ApiKeyManager.tsx]), the cleaning and reading of a
    model answer, the icon and link functions of [geminiService.ts] and
    [analyzeImageWithAI] of [src/services/metadataService.ts], with
    properties read off the code.

    Conventions of the embedding:
    - a JavaScript string is a [string]: a sequence of code units below 256;
    - a JavaScript number that the code uses as a counter, a delay or a
      timestamp is an integer [Z], at sizes where the arithmetic of doubles
      is exact;
    - [localStorage] is a record with one field per key the code uses; an
      absent key is [None]; [JSON.stringify]/[JSON.parse] of the entry list
      is the identity on the list;
    - a value that reaches a [catch] clause is a [JsValue];
    - [console.log]/[console.warn]/[console.error] calls are left out. *)

From Stdlib Require Import ZArith Ascii String DecimalString Lia.
From stdpp Require Import base decidable option list strings.

Local Open Scope Z_scope.

(** ** Strings *)

Module JsString.

(** The white space that [String.prototype.trim] strips, restricted to
    code units below 256: TAB, LF, VT, FF, CR, SPACE and NBSP. *)
Definition isWhiteSpace (c : ascii) : bool :=
  let n := nat_of_ascii c in
  ((9 <=? n)%nat && (n <=? 13)%nat) || (n =? 32)%nat || (n =? 160)%nat.

Fixpoint trimStart (s : string) : string :=
  match s with
  | EmptyString => EmptyString
  | String c s' => if isWhiteSpace c then trimStart s' else s
  end.

Fixpoint trimEnd (s : string) : string :=
  match s with
  | EmptyString => EmptyString
  | String c s' =>
      match trimEnd s' with
      | EmptyString => if isWhiteSpace c then EmptyString else String c EmptyString
      | t => String c t
      end
  end.

(** [s.trim()] *)
Definition trim (s : string) : string := trimEnd (trimStart s).

(** [s.startsWith(pat)] *)
Fixpoint startsWith (pat s : string) : bool :=
  match pat, s with
  | EmptyString, _ => true
  | String a pat', String b s' => if ascii_dec a b then startsWith pat' s' else false
  | String _ _, EmptyString => false
  end.

(** [s.includes(pat)]: [pat] occurs in [s] at some offset. *)
Fixpoint includes (pat s : string) : bool :=
  startsWith pat s ||
  match s with
  | EmptyString => false
  | String _ s' => includes pat s'
  end.

(** A string in a boolean position: only the empty string is falsy. *)
Definition truthy (s : string) : bool :=
  match s with EmptyString => false | String _ _ => true end.

(** [n.toString()] for an integer [n] *)
Definition ofZ (n : Z) : string := NilZero.string_of_int (Z.to_int n).

(** Every character of the string is white space. *)
Fixpoint allWhiteSpace (s : string) : bool :=
  match s with
  | EmptyString => true
  | String c s' => isWhiteSpace c && allWhiteSpace s'
  end.

(** [s.replace(/pat/g, "")] for a pattern [pat] that is a literal text and
    is not empty: the text is read from left to right, an occurrence of
    [pat] at the current position is left out whole, any other code unit is
    kept. [skip] counts the code units of the current occurrence that are
    still to be left out. *)
Fixpoint removeAllFrom (pat : string) (skip : nat) (s : string) : string :=
  match s with
  | EmptyString => EmptyString
  | String c s' =>
      match skip with
      | S k => removeAllFrom pat k s'
      | O =>
          if startsWith pat s then removeAllFrom pat (String.length pat - 1) s'
          else String c (removeAllFrom pat 0 s')
      end
  end.

Definition removeAll (pat s : string) : string := removeAllFrom pat 0 s.

End JsString.

(** ** Values that are thrown and caught *)

(** What a [catch (error: any)] clause of this module receives, an error
    with a textual form: a primitive string, or an [Error] instance with its
    [name] and [message] (the [new Error(...)] of the façade, the errors of
    the SDK and of [JSON.parse]); and the absent errors [null] and
    [undefined] (the initial [lastError]). *)
Inductive JsValue : Type :=
| JsUndefined
| JsNull
| JsStr (s : string)
| JsError (name message : string).

#[global] Instance JsValue_eq_dec : EqDecision JsValue.
Proof. solve_decision. Defined.

(** [new Error(message)] *)
Definition newError (message : string) : JsValue := JsError "Error" message.

(** [Error.prototype.toString] *)
Definition errorToString (name message : string) : string :=
  match name, message with
  | EmptyString, _ => message
  | _, EmptyString => name
  | _, _ => name +:+ ": " +:+ message
  end.

(** ** The credential store ([apiKeyManager.ts]) *)

Record ApiKeyEntry : Type := mkApiKeyEntry {
  id : string;
  name : string;
  key : string;
  createdAt : Z
}.

#[global] Instance ApiKeyEntry_eq_dec : EqDecision ApiKeyEntry.
Proof. solve_decision. Defined.

(** The two [localStorage] items of the module: [STORAGE_KEY] holds the
    serialized entry list, [ACTIVE_KEY_ID] the id of the active entry. *)
Record LocalStorage : Type := mkLocalStorage {
  STORAGE_KEY : option (list ApiKeyEntry);
  ACTIVE_KEY_ID : option string
}.

#[global] Instance LocalStorage_eq_dec : EqDecision LocalStorage.
Proof. solve_decision. Defined.

(** [localStorage.setItem(STORAGE_KEY, JSON.stringify(keys))] *)
Definition setKeysItem (keys : list ApiKeyEntry) (ls : LocalStorage) : LocalStorage :=
  {| STORAGE_KEY := Some keys; ACTIVE_KEY_ID := ACTIVE_KEY_ID ls |}.

(** [localStorage.setItem(ACTIVE_KEY_ID, id)] *)
Definition setActiveItem (i : string) (ls : LocalStorage) : LocalStorage :=
  {| STORAGE_KEY := STORAGE_KEY ls; ACTIVE_KEY_ID := Some i |}.

(** [localStorage.removeItem(ACTIVE_KEY_ID)] *)
Definition removeActiveItem (ls : LocalStorage) : LocalStorage :=
  {| STORAGE_KEY := STORAGE_KEY ls; ACTIVE_KEY_ID := None |}.

(** [localStorage.removeItem(STORAGE_KEY)] *)
Definition removeKeysItem (ls : LocalStorage) : LocalStorage :=
  {| STORAGE_KEY := None; ACTIVE_KEY_ID := ACTIVE_KEY_ID ls |}.

(** The storage of a fresh browser profile. *)
Definition emptyStorage : LocalStorage :=
  {| STORAGE_KEY := None; ACTIVE_KEY_ID := None |}.

Module ApiKeyManager.

(** [stored ? JSON.parse(stored) : []] *)
Definition getAll (ls : LocalStorage) : list ApiKeyEntry :=
  match STORAGE_KEY ls with
  | Some keys => keys
  | None => []
  end.

Definition getActiveId (ls : LocalStorage) : option string := ACTIVE_KEY_ID ls.

(** [keys.some(k => k.id === id)] *)
Definition keyExists (i : string) (keys : list ApiKeyEntry) : bool :=
  existsb (fun k => bool_decide (id k = i)) keys.

Definition setActive (i : string) (ls : LocalStorage) : bool * LocalStorage :=
  let keys := getAll ls in
  if keyExists i keys then (true, setActiveItem i ls) else (false, ls).

(** The id [`key_${Date.now()}_${Math.random().toString(36).substr(2, 9)}`]:
    [now] is the clock reading and [rnd] the random suffix. *)
Definition freshId (now : Z) (rnd : string) : string :=
  "key_" +:+ JsString.ofZ now +:+ "_" +:+ rnd.

(** [add(name, key)]; [now] and [rnd] are what [Date.now()] and
    [Math.random()] give for the id, [now'] is the second [Date.now()]. *)
Definition add (now : Z) (rnd : string) (now' : Z) (nm k : string)
    (ls : LocalStorage) : ApiKeyEntry * LocalStorage :=
  let keys := getAll ls in
  let newKey :=
    {| id := freshId now rnd;
       name := JsString.trim nm;
       key := JsString.trim k;
       createdAt := now' |} in
  let keys := keys ++ [newKey] in
  let ls := setKeysItem keys ls in
  let ls := if (length keys =? 1)%nat then snd (setActive (id newKey) ls) else ls in
  (newKey, ls).

Definition delete (i : string) (ls : LocalStorage) : bool * LocalStorage :=
  let keys := getAll ls in
  let filtered := List.filter (fun k => negb (bool_decide (id k = i))) keys in
  if (length filtered =? length keys)%nat then (false, ls)
  else
    let ls := setKeysItem filtered ls in
    let activeId := getActiveId ls in
    if bool_decide (activeId = Some i) then
      match filtered with
      | first :: _ => (true, snd (setActive (id first) ls))
      | [] => (true, removeActiveItem ls)
      end
    else (true, ls).

(** [keys.find(k => k.id === activeId) || null], after the
    [if (!activeId) return null] guard. *)
Definition getActive (ls : LocalStorage) : option ApiKeyEntry :=
  match getActiveId ls with
  | None => None
  | Some activeId =>
      if JsString.truthy activeId
      then List.find (fun k => bool_decide (id k = activeId)) (getAll ls)
      else None
  end.

(** [active ? active.key : null] *)
Definition getActiveKey (ls : LocalStorage) : option string :=
  match getActive ls with
  | Some active => Some (key active)
  | None => None
  end.

Definition hasKeys (ls : LocalStorage) : bool :=
  (0 <? length (getAll ls))%nat.

(** [keys.findIndex(p)]: the first index that satisfies [p], or [-1]. *)
Definition findIndex (p : ApiKeyEntry -> bool) (keys : list ApiKeyEntry) : Z :=
  match list_find (fun k => p k = true) keys with
  | Some (ix, _) => Z.of_nat ix
  | None => -1
  end.

(** [update(id, name, key)]: [findIndex] and the read of [keys[index]] are
    one [list_find], whose [None] is the [index === -1] of the source. *)
Definition update (i nm k : string) (ls : LocalStorage) : bool * LocalStorage :=
  let keys := getAll ls in
  match list_find (fun e => id e = i) keys with
  | None => (false, ls)
  | Some (index, old) =>
      let keys :=
        <[index :=
            {| id := id old; name := JsString.trim nm;
               key := JsString.trim k; createdAt := createdAt old |}]> keys in
      (true, setKeysItem keys ls)
  end.

Definition clearAll (ls : LocalStorage) : LocalStorage :=
  removeActiveItem (removeKeysItem ls).

End ApiKeyManager.

(** ** The key manager dialog ([components/ApiKeyManager.tsx]) *)

Module ApiKeyManagerComponent.

(** What the [useState] hooks of the component hold. [keys] and
    [activeKeyId] are the copy of the store that the dialog shows. *)
Record State : Type := mkState {
  keys : list ApiKeyEntry;
  activeKeyId : option string;
  newKeyName : string;
  newKeyValue : string;
  editingId : option string;
  editName : string;
  editKey : string;
  showAddForm : bool
}.

Definition initialState : State :=
  {| keys := []; activeKeyId := None; newKeyName := ""; newKeyValue := "";
     editingId := None; editName := ""; editKey := ""; showAddForm := false |}.

Definition setKeys (v : list ApiKeyEntry) (st : State) : State :=
  {| keys := v; activeKeyId := activeKeyId st; newKeyName := newKeyName st;
     newKeyValue := newKeyValue st; editingId := editingId st;
     editName := editName st; editKey := editKey st; showAddForm := showAddForm st |}.

Definition setActiveKeyId (v : option string) (st : State) : State :=
  {| keys := keys st; activeKeyId := v; newKeyName := newKeyName st;
     newKeyValue := newKeyValue st; editingId := editingId st;
     editName := editName st; editKey := editKey st; showAddForm := showAddForm st |}.

Definition setNewKeyName (v : string) (st : State) : State :=
  {| keys := keys st; activeKeyId := activeKeyId st; newKeyName := v;
     newKeyValue := newKeyValue st; editingId := editingId st;
     editName := editName st; editKey := editKey st; showAddForm := showAddForm st |}.

Definition setNewKeyValue (v : string) (st : State) : State :=
  {| keys := keys st; activeKeyId := activeKeyId st; newKeyName := newKeyName st;
     newKeyValue := v; editingId := editingId st;
     editName := editName st; editKey := editKey st; showAddForm := showAddForm st |}.

Definition setEditingId (v : option string) (st : State) : State :=
  {| keys := keys st; activeKeyId := activeKeyId st; newKeyName := newKeyName st;
     newKeyValue := newKeyValue st; editingId := v;
     editName := editName st; editKey := editKey st; showAddForm := showAddForm st |}.

Definition setEditName (v : string) (st : State) : State :=
  {| keys := keys st; activeKeyId := activeKeyId st; newKeyName := newKeyName st;
     newKeyValue := newKeyValue st; editingId := editingId st;
     editName := v; editKey := editKey st; showAddForm := showAddForm st |}.

Definition setEditKey (v : string) (st : State) : State :=
  {| keys := keys st; activeKeyId := activeKeyId st; newKeyName := newKeyName st;
     newKeyValue := newKeyValue st; editingId := editingId st;
     editName := editName st; editKey := v; showAddForm := showAddForm st |}.

Definition setShowAddForm (v : bool) (st : State) : State :=
  {| keys := keys st; activeKeyId := activeKeyId st; newKeyName := newKeyName st;
     newKeyValue := newKeyValue st; editingId := editingId st;
     editName := editName st; editKey := editKey st; showAddForm := v |}.

(** A handler runs on the state of the component and on [localStorage]. *)
Definition Dialog : Type := State * LocalStorage.

Definition loadKeys (d : Dialog) : Dialog :=
  let '(st, ls) := d in
  (setActiveKeyId (ApiKeyManager.getActiveId ls) (setKeys (ApiKeyManager.getAll ls) st),
   ls).

(** [handleAddKey]; the [alert] of the rejected input is left out. [now],
    [rnd] and [now'] are what the clock and the random generator give to
    [ApiKeyManager.add]. *)
Definition handleAddKey (now : Z) (rnd : string) (now' : Z) (d : Dialog) : Dialog :=
  let '(st, ls) := d in
  if negb (JsString.truthy (JsString.trim (newKeyName st)))
     || negb (JsString.truthy (JsString.trim (newKeyValue st)))
  then d
  else
    let ls := (ApiKeyManager.add now rnd now' (newKeyName st) (newKeyValue st) ls).2 in
    loadKeys (setShowAddForm false (setNewKeyValue "" (setNewKeyName "" st)), ls).

(** [handleDeleteKey(id)]; [confirmed] is the answer to [confirm]. *)
Definition handleDeleteKey (confirmed : bool) (i : string) (d : Dialog) : Dialog :=
  let '(st, ls) := d in
  if confirmed then loadKeys (st, (ApiKeyManager.delete i ls).2) else d.

Definition handleSetActive (i : string) (d : Dialog) : Dialog :=
  let '(st, ls) := d in
  loadKeys (st, (ApiKeyManager.setActive i ls).2).

Definition handleStartEdit (e : ApiKeyEntry) (d : Dialog) : Dialog :=
  let '(st, ls) := d in
  (setEditKey (key e) (setEditName (name e) (setEditingId (Some (id e)) st)), ls).

Definition handleSaveEdit (d : Dialog) : Dialog :=
  let '(st, ls) := d in
  match editingId st with
  | Some i =>
      if JsString.truthy i
         && JsString.truthy (JsString.trim (editName st))
         && JsString.truthy (JsString.trim (editKey st))
      then
        let ls := (ApiKeyManager.update i (editName st) (editKey st) ls).2 in
        loadKeys (setEditKey "" (setEditName "" (setEditingId None st)), ls)
      else d
  | None => d
  end.

Definition handleCancelEdit (d : Dialog) : Dialog :=
  let '(st, ls) := d in
  (setEditKey "" (setEditName "" (setEditingId None st)), ls).

(** What the user can do in the dialog: the [onChange] of the four inputs
    and the [onClick] of the buttons. *)
Inductive Action : Type :=
| Mount
| TypeNewKeyName (v : string)
| TypeNewKeyValue (v : string)
| TypeEditName (v : string)
| TypeEditKey (v : string)
| ClickAddNew
| ClickSaveNew (now : Z) (rnd : string) (now' : Z)
| ClickCancelNew
| ClickDelete (confirmed : bool) (i : string)
| ClickSetActive (i : string)
| ClickEdit (e : ApiKeyEntry)
| ClickSaveEdit
| ClickCancelEdit.

Definition perform (a : Action) (d : Dialog) : Dialog :=
  match a with
  | Mount => loadKeys d
  | TypeNewKeyName v => (setNewKeyName v d.1, d.2)
  | TypeNewKeyValue v => (setNewKeyValue v d.1, d.2)
  | TypeEditName v => (setEditName v d.1, d.2)
  | TypeEditKey v => (setEditKey v d.1, d.2)
  | ClickAddNew => (setShowAddForm true d.1, d.2)
  | ClickSaveNew now rnd now' => handleAddKey now rnd now' d
  | ClickCancelNew =>
      (setNewKeyValue "" (setNewKeyName "" (setShowAddForm false d.1)), d.2)
  | ClickDelete confirmed i => handleDeleteKey confirmed i d
  | ClickSetActive i => handleSetActive i d
  | ClickEdit e => handleStartEdit e d
  | ClickSaveEdit => handleSaveEdit d
  | ClickCancelEdit => handleCancelEdit d
  end.

End ApiKeyManagerComponent.

(** ** Rate-limit classification and key rotation ([geminiService.ts]) *)

(** [text.replace(/```json/g, "").replace(/```/g, "").trim()] *)
Definition cleanJsonResponse (text : string) : string :=
  JsString.trim (JsString.removeAll "```" (JsString.removeAll "```json" text)).

(** The fields of a response of the model that [extractInlineImage] reads;
    each of them may be missing. *)
Module GenAI.

Record InlineData : Type := mkInlineData {
  mimeType : option string;
  data : option string
}.

Record Part : Type := mkPart { inlineData : option InlineData }.

Record Content : Type := mkContent { parts : option (list Part) }.

Record Candidate : Type := mkCandidate { content : option Content }.

Record Response : Type := mkResponse { candidates : option (list Candidate) }.

End GenAI.

(** [`${v}`] for a value that is a string or [undefined]. *)
Definition interpolate (v : option string) : string := default "undefined" v.

(** [`data:${part.inlineData.mimeType};base64,${part.inlineData.data}`] *)
Definition dataUrl (d : GenAI.InlineData) : string :=
  "data:" +:+ interpolate (GenAI.mimeType d) +:+ ";base64," +:+ interpolate (GenAI.data d).

(** [candidate.content?.parts || []] *)
Definition partsOf (candidate : GenAI.Candidate) : list GenAI.Part :=
  match GenAI.content candidate with
  | Some c => default [] (GenAI.parts c)
  | None => []
  end.

(** The inner loop of [extractInlineImage]: [None] when the loop ends
    without a [return]. *)
Fixpoint extractFromParts (ps : list GenAI.Part) : option string :=
  match ps with
  | [] => None
  | part :: ps' =>
      match GenAI.inlineData part with
      | Some d => Some (dataUrl d)
      | None => extractFromParts ps'
      end
  end.

(** The outer loop. *)
Fixpoint extractFromCandidates (cs : list GenAI.Candidate) : option string :=
  match cs with
  | [] => None
  | candidate :: cs' =>
      match extractFromParts (partsOf candidate) with
      | Some img => Some img
      | None => extractFromCandidates cs'
      end
  end.

Definition extractInlineImage (response : GenAI.Response) : option string :=
  extractFromCandidates (default [] (GenAI.candidates response)).

(** [a || b] on values that are a string or [undefined]. *)
Definition jsOr (a b : option string) : option string :=
  match a with
  | Some s => if JsString.truthy s then a else b
  | None => b
  end.

(** [error?.message] *)
Definition messageOf (error : JsValue) : option string :=
  match error with
  | JsError _ m => Some m
  | JsUndefined | JsNull | JsStr _ => None
  end.

(** [error?.toString()] *)
Definition toStringOf (error : JsValue) : option string :=
  match error with
  | JsUndefined | JsNull => None
  | JsStr s => Some s
  | JsError n m => Some (errorToString n m)
  end.

(** [error?.message || error?.toString() || ''] *)
Definition errorStr (error : JsValue) : string :=
  default "" (jsOr (jsOr (messageOf error) (toStringOf error)) (Some "")).

Definition isRateLimitError (error : JsValue) : bool :=
  let errorStr := errorStr error in
  JsString.includes "429" errorStr ||
  JsString.includes "Too Many Requests" errorStr ||
  JsString.includes "RESOURCE_EXHAUSTED" errorStr ||
  JsString.includes "quota" errorStr.

Definition tryRotateApiKey (ls : LocalStorage) : bool * LocalStorage :=
  let allKeys := ApiKeyManager.getAll ls in
  let currentActiveId := ApiKeyManager.getActiveId ls in
  if (length allKeys <=? 1)%nat then (false, ls)
  else
    let currentIndex :=
      ApiKeyManager.findIndex
        (fun k => bool_decide (Some (id k) = currentActiveId)) allKeys in
    let nextIndex := Z.rem (currentIndex + 1) (Z.of_nat (length allKeys)) in
    match allKeys !! Z.to_nat nextIndex with
    | Some nextKey =>
        if negb (bool_decide (Some (id nextKey) = currentActiveId))
        then (true, snd (ApiKeyManager.setActive (id nextKey) ls))
        else (false, ls)
    | None => (false, ls)
    end.

(** ** The retrying executor *)

(** How a call completes: with a value, or by throwing. *)
Inductive Completion (A : Type) : Type :=
| Normal (a : A)
| Throw (e : JsValue).
Arguments Normal {A} a.
Arguments Throw {A} e.

(** What an observer of a run sees, in order: a [sleep(ms)], a call of
    [apiCall] with the way it ended, a [tryRotateApiKey()] with its result,
    and a request sent to the remote backend with a credential. *)
Inductive Event : Type :=
| EvSleep (ms : Z)
| EvAttempt (failure : option JsValue)
| EvRotate (rotated : bool)
| EvRemote (apiKey : string).

#[global] Instance Event_eq_dec : EqDecision Event.
Proof. solve_decision. Defined.

Section Executor.

(** The state of the remote backend, of which nothing is known. *)
Context {R : Type}.

Record World : Type := mkWorld {
  storage : LocalStorage;
  backend : R
}.

(** A computation reads and writes the world, may throw, and leaves a
    trace of events. *)
Definition Exec (A : Type) : Type := World -> Completion A * World * list Event.

Definition ret {A} (a : A) : Exec A := fun w => (Normal a, w, []).

Definition throw {A} (e : JsValue) : Exec A := fun w => (Throw e, w, []).

Definition bind {A B} (m : Exec A) (f : A -> Exec B) : Exec B :=
  fun w =>
    match m w with
    | (Normal a, w1, t1) =>
        let '(c, w2, t2) := f a w1 in (c, w2, t1 ++ t2)
    | (Throw e, w1, t1) => (Throw e, w1, t1)
    end.

(** [try { m } catch (e) { h e }] *)
Definition tryCatch {A} (m : Exec A) (h : JsValue -> Exec A) : Exec A :=
  fun w =>
    match m w with
    | (Normal a, w1, t1) => (Normal a, w1, t1)
    | (Throw e, w1, t1) =>
        let '(c, w2, t2) := h e w1 in (c, w2, t1 ++ t2)
    end.

Notation "'let*' x := m 'in' k" := (bind m (fun x => k))
  (at level 10, x name, m at level 100, k at level 200).
Notation "m >> k" := (bind m (fun _ => k))
  (at level 100, k at level 200, right associativity).

(** [await sleep(ms)] *)
Definition sleep (ms : Z) : Exec unit := fun w => (Normal tt, w, [EvSleep ms]).

(** [tryRotateApiKey()] on the storage of the world. *)
Definition rotate : Exec bool :=
  fun w =>
    let '(rotated, ls) := tryRotateApiKey (storage w) in
    (Normal rotated, {| storage := ls; backend := backend w |}, [EvRotate rotated]).

(** [ApiKeyManager.getActiveKey()] on the storage of the world. *)
Definition readActiveKey : Exec (option string) :=
  fun w => (Normal (ApiKeyManager.getActiveKey (storage w)), w, []).

(** The closures handed to [executeWithRetry]: they read the credential
    store without writing it, talk to the backend, and report the
    credentials with which they sent a request. *)
Definition Operation (T : Type) : Type :=
  LocalStorage -> R -> Completion T * R * list string.

(** [await apiCall()] *)
Definition call {T} (apiCall : Operation T) : Exec T :=
  fun w =>
    let '(c, r, sent) := apiCall (storage w) (backend w) in
    (c, {| storage := storage w; backend := r |},
     (EvRemote <$> sent) ++
     [EvAttempt match c with Normal _ => None | Throw e => Some e end]).

(** How one pass through the body of the [for] loop ends when it does not
    throw: by [return], or by going on to the next pass ([continue], or
    the end of the [catch] block) with the error it stored in
    [lastError]. *)
Inductive Pass (T : Type) : Type :=
| Return (v : T)
| Next (lastError : JsValue).
Arguments Return {T} v.
Arguments Next {T} lastError.

Section ExecuteWithRetry.

Context {T : Type}.
Variable apiCall : Operation T.
Variables maxRetries baseDelay : Z.

(** The [catch (error)] block. [continue] is the early [Next]. *)
Definition onError (attempt : Z) (error : JsValue) : Exec (Pass T) :=
  let* continued :=
    (if isRateLimitError error then
       if attempt <? maxRetries - 1 then
         let* rotated := rotate in
         if rotated then ret true
         else sleep (5000 * (attempt + 1)) >> ret false
       else ret false
     else ret false) in
  if (continued : bool) then ret (Next error)
  else if attempt =? maxRetries - 1 then throw error
  else ret (Next error).

(** The body of the [for] loop at a given value of [attempt]. *)
Definition pass (attempt : Z) : Exec (Pass T) :=
  tryCatch
    ((if 0 <? attempt then sleep (baseDelay * 2 ^ (attempt - 1)) else ret tt) >>
     let* v := call apiCall in
     ret (Return v))
    (onError attempt).

(** [for (attempt = ...; attempt < maxRetries; attempt++) {...}] followed
    by [throw lastError]; [left] is the number of values of [attempt]
    that remain below [maxRetries]. *)
Fixpoint retryLoop (left : nat) (attempt : Z) (lastError : JsValue) : Exec T :=
  match left with
  | O => throw lastError
  | S left' =>
      let* p := pass attempt in
      match p with
      | Return v => ret v
      | Next e => retryLoop left' (attempt + 1) e
      end
  end.

Definition executeWithRetry : Exec T :=
  retryLoop (Z.to_nat maxRetries) 0 JsUndefined.

End ExecuteWithRetry.

(** ** The generation façade *)

Definition NO_API_KEY : string :=
  "No API key configured. Please add an API key in the API Key Manager.".

(** [if (!apiKey) absent; else present(apiKey)]: an absent credential and
    the empty string are both falsy. *)
Definition ifKey {A} (apiKey : option string) (absent : A) (present : string -> A) : A :=
  match apiKey with
  | Some k => if JsString.truthy k then present k else absent
  | None => absent
  end.

(** The part of a closure that comes after its credential check: it
    builds [new GoogleGenAI({ apiKey })], sends the request and decodes the
    answer. It is recorded as a request sent with [apiKey]. *)
Definition withKey {T} (request : string -> R -> Completion T * R)
    (apiKey : string) : Operation T :=
  fun _ r => let '(c, r') := request apiKey r in (c, r', [apiKey]).

Section Facade.

Context {Designs Abstract : Type}.
Variable requestDesigns : string -> R -> Completion Designs * R.
Variable requestImage : string -> R -> Completion (option string) * R.
Variable requestDocumentation : string -> R -> Completion (option string) * R.
Variable requestAbstract : string -> R -> Completion (option Abstract) * R.

Definition generateDesigns : Exec Designs :=
  executeWithRetry
    (fun ls r =>
       let apiKey := ApiKeyManager.getActiveKey ls in
       ifKey apiKey
         (Throw (newError NO_API_KEY), r, [])
         (fun apiKey => withKey requestDesigns apiKey ls r))
    3 3000.

Definition generateImageForDesign : Exec (option string) :=
  tryCatch
    (executeWithRetry
       (fun ls r =>
          let apiKey := ApiKeyManager.getActiveKey ls in
          ifKey apiKey
            (Throw (newError NO_API_KEY), r, [])
            (fun apiKey => withKey requestImage apiKey ls r))
       2 2000)
    (fun err => ret None).

Definition generatePartDocumentation : Exec (option string) :=
  let* apiKey := readActiveKey in
  ifKey apiKey
    (ret None)
    (fun apiKey =>
       tryCatch
         (executeWithRetry (withKey requestDocumentation apiKey) 2 1500)
         (fun err => ret None)).

Definition generateRealPartAbstract : Exec (option Abstract) :=
  let* apiKey := readActiveKey in
  ifKey apiKey
    (ret None)
    (fun apiKey =>
       tryCatch
         (executeWithRetry (withKey requestAbstract apiKey) 2 1500)
         (fun e => ret None)).

End Facade.

Section LinkAnalysis.

Context {Link : Type}.
Variable requestLink : string -> R -> Completion (option Link) * R.

(** [analyzeProductLink]: the [catch] logs the error and throws it again. *)
Definition analyzeProductLink : Exec (option Link) :=
  let* apiKey := readActiveKey in
  ifKey apiKey
    (ret None)
    (fun apiKey =>
       tryCatch
         (executeWithRetry (withKey requestLink apiKey) 2 2000)
         (fun e => throw e)).

End LinkAnalysis.

Section CategoryIcon.

(** The three requests of [generateCategoryIcon]: to the image model, to
    the older image model, each answered with a response, and to the text
    model, answered with [response.text]. *)
Variable requestIcon : string -> R -> Completion GenAI.Response * R.
Variable requestIconFallback : string -> R -> Completion GenAI.Response * R.
Variable requestSvg : string -> R -> Completion (option string) * R.

(** [btoa] on strings of code units below 256, on which it does not throw. *)
Variable btoa : string -> string.

Definition NO_KEY : string := "No API key".

Definition generateSVGIcon : Operation (option string) :=
  fun ls r =>
    let apiKey := ApiKeyManager.getActiveKey ls in
    ifKey apiKey
      (Normal None, r, [])
      (fun apiKey =>
         match requestSvg apiKey r with
         | (Normal text, r') =>
             let svg := default "" text in
             let svg :=
               JsString.trim
                 (JsString.removeAll "```"
                    (JsString.removeAll "```svg" (JsString.removeAll "```xml" svg))) in
             (if JsString.startsWith "<svg" svg
              then Normal (Some ("data:image/svg+xml;base64," +:+ btoa svg))
              else Normal None,
              r', [apiKey])
         | (Throw e, r') => (Throw e, r', [apiKey])
         end).

(** [try { const response = await request; const img =
    extractInlineImage(response); if (img) return img; } catch (err) {}]:
    the image that is returned, if one is. *)
Definition tryImage (request : string -> R -> Completion GenAI.Response * R)
    (apiKey : string) (r : R) : option string * R :=
  let '(c, r') := request apiKey r in
  (match c with
   | Normal response =>
       match extractInlineImage response with
       | Some img => if JsString.truthy img then Some img else None
       | None => None
       end
   | Throw _ => None
   end, r').

(** The closure that [generateCategoryIcon] hands to [executeWithRetry]. *)
Definition categoryIconCall : Operation (option string) :=
  fun ls r =>
    let apiKey := ApiKeyManager.getActiveKey ls in
    ifKey apiKey
      (Throw (newError NO_KEY), r, [])
      (fun apiKey =>
         match tryImage requestIcon apiKey r with
         | (Some img, r1) => (Normal (Some img), r1, [apiKey])
         | (None, r1) =>
             match tryImage requestIconFallback apiKey r1 with
             | (Some img, r2) => (Normal (Some img), r2, [apiKey; apiKey])
             | (None, r2) =>
                 let '(c, r3, sent) := generateSVGIcon ls r2 in
                 (c, r3, [apiKey; apiKey] ++ sent)
             end
         end).

Definition generateCategoryIcon : Exec (option string) :=
  executeWithRetry categoryIconCall 2 2000.

End CategoryIcon.

(** ** The analysis of a blueprint image ([metadataService.ts]) *)

Section ImageAnalysis.

Context {Metadata : Type}.

(** The request of [analyzeImageWithAI] with the decoding of its answer,
    which may throw. *)
Variable requestAnalysis : string -> R -> Completion Metadata * R.

Definition NO_KEY_AVAILABLE : string := "No API key available".

(** [analyzeImageWithAI]: it checks the active entry, not its secret, and
    calls the backend once, outside of [executeWithRetry]. *)
Definition analyzeImageWithAI : Exec (option Metadata) :=
  tryCatch
    (fun w =>
       match ApiKeyManager.getActive (storage w) with
       | None => throw (newError NO_KEY_AVAILABLE) w
       | Some activeKey =>
           let '(c, r) := requestAnalysis (key activeKey) (backend w) in
           (match c with
            | Normal parsed => Normal (Some parsed)
            | Throw e => Throw e
            end,
            {| storage := storage w; backend := r |},
            [EvRemote (key activeKey)])
       end)
    (fun error => ret None).

End ImageAnalysis.

End Executor.

Arguments Return {T} v.
Arguments Next {T} lastError.
Arguments World R : clear implicits.
Arguments Exec R A : clear implicits.
Arguments Operation R T : clear implicits.

(** ** Reading a trace *)

(** The calls of [apiCall], each with the way it ended. *)
Definition attempts (t : list Event) : list (option JsValue) :=
  omap (fun ev => match ev with EvAttempt f => Some f | _ => None end) t.

(** The results of the calls of [tryRotateApiKey]. *)
Definition rotations (t : list Event) : list bool :=
  omap (fun ev => match ev with EvRotate b => Some b | _ => None end) t.

(** The credentials with which a request was sent. *)
Definition remoteCalls (t : list Event) : list string :=
  omap (fun ev => match ev with EvRemote k => Some k | _ => None end) t.

(** The sleeps, in order. *)
Definition sleeps (t : list Event) : list Z :=
  omap (fun ev => match ev with EvSleep ms => Some ms | _ => None end) t.

(** For each call of [apiCall], the time slept since the previous call (or
    since the start); [acc] is the time slept so far in the current gap. *)
Fixpoint suspensionsFrom (acc : Z) (t : list Event) : list Z :=
  match t with
  | [] => []
  | EvSleep ms :: t' => suspensionsFrom (acc + ms) t'
  | EvAttempt _ :: t' => acc :: suspensionsFrom 0 t'
  | _ :: t' => suspensionsFrom acc t'
  end.

Definition suspensions (t : list Event) : list Z := suspensionsFrom 0 t.

(** The total suspension between attempt [n - 1] and attempt [n]
    (attempts are numbered from 1), if attempt [n] took place. *)
Definition suspensionBefore (n : Z) (t : list Event) : option Z :=
  if 1 <=? n then suspensions t !! Z.to_nat (n - 1) else None.

(** The outcome of attempt [n] (numbered from 1), if it took place. *)
Definition attemptNo (n : Z) (t : list Event) : option (option JsValue) :=
  if 1 <=? n then attempts t !! Z.to_nat (n - 1) else None.

(** ** Vocabulary of the properties *)

(** The ids of a list of entries, in stored order. *)
Definition ids (keys : list ApiKeyEntry) : list string := id <$> keys.

(** The entries that [delete] keeps. *)
Definition others (i : string) (keys : list ApiKeyEntry) : list ApiKeyEntry :=
  List.filter (fun k => negb (bool_decide (id k = i))) keys.

(** The operations of the store, with what the clock and the random
    generator give to an [add]. *)
Inductive StoreOp : Type :=
| OpAdd (now : Z) (rnd : string) (now' : Z) (nm k : string)
| OpUpdate (i nm k : string)
| OpDelete (i : string)
| OpSetActive (i : string)
| OpClearAll.

Definition applyOp (op : StoreOp) (ls : LocalStorage) : LocalStorage :=
  match op with
  | OpAdd now rnd now' nm k => (ApiKeyManager.add now rnd now' nm k ls).2
  | OpUpdate i nm k => (ApiKeyManager.update i nm k ls).2
  | OpDelete i => (ApiKeyManager.delete i ls).2
  | OpSetActive i => (ApiKeyManager.setActive i ls).2
  | OpClearAll => ApiKeyManager.clearAll ls
  end.

(** The storage after each operation of a sequence. *)
Fixpoint statesAfter (ops : list StoreOp) (ls : LocalStorage) : list LocalStorage :=
  match ops with
  | [] => []
  | op :: ops' => let ls' := applyOp op ls in ls' :: statesAfter ops' ls'
  end.

(** The active pointer is unset or is the id of a stored entry. *)
Definition activeResolves (ls : LocalStorage) : Prop :=
  match ApiKeyManager.getActiveId ls with
  | None => True
  | Some a => a ∈ ids (ApiKeyManager.getAll ls)
  end.

(** [n] successive calls of [tryRotateApiKey]: the result of each call with
    the active id after it, and the final storage. *)
Fixpoint rotateTimes (n : nat) (ls : LocalStorage) : list (bool * option string) * LocalStorage :=
  match n with
  | O => ([], ls)
  | S n' =>
      let '(rotated, ls1) := tryRotateApiKey ls in
      let '(rest, ls2) := rotateTimes n' ls1 in
      ((rotated, ApiKeyManager.getActiveId ls1) :: rest, ls2)
  end.

(** [pat] occurs in [s]: [s] is some text, then [pat], then some text. *)
Definition occursIn (pat s : string) : Prop :=
  exists before after, s = before +:+ pat +:+ after.

(** The sleep at the head of the [try] block. *)
Definition backoff (baseDelay attempt : Z) : list Event :=
  if 0 <? attempt then [EvSleep (baseDelay * 2 ^ (attempt - 1))] else [].

(** The time slept in a trace. *)
Definition totalSleep (t : list Event) : Z := foldr Z.add 0 (sleeps t).

(** Every call of the operation throws, and the classifier answers
    [classified] on what it throws. *)
Definition alwaysFails {R T} (classified : bool) (apiCall : Operation R T) : Prop :=
  forall ls r, exists e r' sent,
    apiCall ls r = (Throw e, r', sent) /\ isRateLimitError e = classified.

(** [!apiKey] holds: there is no active credential, or its secret is empty. *)
Definition noUsableKey (apiKey : option string) : Prop :=
  apiKey = None \/ apiKey = Some "".

(** Two runs end the same way and leave the same trace. *)
Definition sameRun {R A} (m : Exec R A) (w w0 : World R) : Prop :=
  (m w).1.1 = (m w0).1.1 /\ (m w).2 = (m w0).2.

(** Every stored id is a non-empty string, and a store that holds entries
    has an active id that is the id of one of them. *)
Definition wellKept (ls : LocalStorage) : Prop :=
  (forall e, e ∈ ApiKeyManager.getAll ls -> id e <> "") /\
  (ApiKeyManager.getAll ls <> [] ->
   exists a, ApiKeyManager.getActiveId ls = Some a /\ a ∈ ids (ApiKeyManager.getAll ls)).

(** An [add] draws an id that is not stored yet; the other operations draw
    nothing. *)
Definition drawsFreshId (op : StoreOp) (ls : LocalStorage) : Prop :=
  match op with
  | OpAdd now rnd _ _ _ => ApiKeyManager.freshId now rnd ∉ ids (ApiKeyManager.getAll ls)
  | _ => True
  end.

(** The most that a run of [maxRetries] attempts can sleep: every backoff
    and, after every attempt but the last, the cooldown of a rotation that
    found no other credential. *)
Definition sleepBudget (maxRetries baseDelay : Z) : Z :=
  baseDelay * (2 ^ (maxRetries - 1) - 1) + 2500 * maxRetries * (maxRetries - 1).

(** What remains of the budget when pass number [attempt] begins. *)
Definition sleepBudgetFrom (maxRetries baseDelay attempt : Z) : Z :=
  baseDelay * (2 ^ (maxRetries - 1) - (if attempt <=? 0 then 1 else 2 ^ (attempt - 1))) +
  2500 * ((maxRetries - 1) * maxRetries - attempt * (attempt + 1)).

(** The text without its first [n] code units. *)
Fixpoint dropStr (n : nat) (s : string) : string :=
  match n, s with
  | O, _ => s
  | S n', String _ s' => dropStr n' s'
  | S _, EmptyString => EmptyString
  end.

(** The number of backticks at the head of a text. *)
Fixpoint leadingTicks (s : string) : nat :=
  match s with
  | String c s' => if ascii_dec c "`" then S (leadingTicks s') else O
  | EmptyString => O
  end.

(** No code unit of the text is [c]. *)
Fixpoint lacks (c : ascii) (s : string) : Prop :=
  match s with
  | String d s' => d <> c /\ lacks c s'
  | EmptyString => True
  end.

(** Every inline image of a response, in the order of the candidates and,
    within a candidate, of its parts. *)
Definition inlineImages (response : GenAI.Response) : list GenAI.InlineData :=
  default [] (GenAI.candidates response) ≫= (fun c => omap GenAI.inlineData (partsOf c)).

(** What writes the credential store: the dialog and the rotation of the
    executor. *)
Inductive Use : Type :=
| UseDialog (a : ApiKeyManagerComponent.Action)
| UseRotation.

Definition useStep (u : Use) (d : ApiKeyManagerComponent.Dialog)
    : ApiKeyManagerComponent.Dialog :=
  match u with
  | UseDialog a => ApiKeyManagerComponent.perform a d
  | UseRotation => (d.1, (tryRotateApiKey d.2).2)
  end.

(** The dialog and the store after a sequence of uses. *)
Definition useAll (us : list Use) (d : ApiKeyManagerComponent.Dialog)
    : ApiKeyManagerComponent.Dialog :=
  foldl (fun d u => useStep u d) d us.

(** No stored entry has an empty name or an empty secret. *)
Definition filledIn (ls : LocalStorage) : Prop :=
  forall e, e ∈ ApiKeyManager.getAll ls -> name e <> "" /\ key e <> "".

(** ** Sample data *)

Definition keyA : ApiKeyEntry :=
  {| id := "key_1700000000000_a1b2c3d4e"; name := "A"; key := "secret-A";
     createdAt := 1700000000000 |}.
Definition keyB : ApiKeyEntry :=
  {| id := "key_1700000000500_f5g6h7i8j"; name := "B"; key := "secret-B";
     createdAt := 1700000000500 |}.
Definition keyC : ApiKeyEntry :=
  {| id := "key_1700000000900_k9l0m1n2o"; name := "C"; key := "secret-C";
     createdAt := 1700000000900 |}.

(** Three credentials, the first one active. *)
Definition threeKeys : LocalStorage :=
  {| STORAGE_KEY := Some [keyA; keyB; keyC]; ACTIVE_KEY_ID := Some (id keyA) |}.

(** A single credential, active. *)
Definition oneKey : LocalStorage :=
  {| STORAGE_KEY := Some [keyA]; ACTIVE_KEY_ID := Some (id keyA) |}.

(** The store after a first [add] whose secret is three spaces. *)
Definition blankSecret : ApiKeyEntry * LocalStorage :=
  ApiKeyManager.add 1700000000000 "a1b2c3d4e" 1700000000000 "spare" "   " emptyStorage.

(** An operation that reads the active credential, sends a request, and is
    always answered with a rate limit. *)
Definition rateLimited : Operation unit unit :=
  fun ls r =>
    (Throw (newError "429 Too Many Requests"), r,
     match ApiKeyManager.getActiveKey ls with Some k => [k] | None => [] end).

(** An operation that fails before it reaches the backend. *)
Definition networkDown : Operation unit unit :=
  fun ls r => (Throw (newError "network unreachable"), r, []).

(** A backend that answers every request. *)
Definition answer {A} (a : A) : string -> unit -> Completion A * unit :=
  fun apiKey r => (Normal a, r).

(** A backend that answers the requests of every credential but one,
    which it turns down with a rate limit. *)
Definition exhaustedFor {A} (secret : string) (a : A)
    : string -> unit -> Completion A * unit :=
  fun apiKey r =>
    if String.eqb apiKey secret
    then (Throw (newError "429 Too Many Requests"), r)
    else (Normal a, r).

(** A backend that turns every request down with a rate limit. *)
Definition exhausted {A} : string -> unit -> Completion A * unit :=
  fun apiKey r => (Throw (newError "429 Too Many Requests"), r).

(** Three credentials and no active id. *)
Definition noPointer : LocalStorage :=
  {| STORAGE_KEY := Some [keyA; keyB; keyC]; ACTIVE_KEY_ID := None |}.

(** * Properties *)

(** ** The credential store *)

Lemma getAll_setKeysItem keys ls :
  ApiKeyManager.getAll (setKeysItem keys ls) = keys.
Proof. reflexivity. Qed.

Lemma keyExists_spec i keys :
  ApiKeyManager.keyExists i keys = true <-> i ∈ ids keys.
Proof.
  unfold ApiKeyManager.keyExists, ids. rewrite existsb_exists, list_elem_of_fmap.
  split.
  - intros (k & Hin & Hk). apply bool_decide_eq_true in Hk.
    exists k. split; [done | by apply list_elem_of_In].
  - intros (k & -> & Hin). exists k. split; [by apply list_elem_of_In |].
    by apply bool_decide_eq_true.
Qed.

Lemma setActive_present i ls :
  i ∈ ids (ApiKeyManager.getAll ls) ->
  ApiKeyManager.setActive i ls = (true, setActiveItem i ls).
Proof.
  intros Hin. unfold ApiKeyManager.setActive.
  apply keyExists_spec in Hin. by rewrite Hin.
Qed.

Lemma setActive_absent i ls :
  i ∉ ids (ApiKeyManager.getAll ls) ->
  ApiKeyManager.setActive i ls = (false, ls).
Proof.
  intros Hin. unfold ApiKeyManager.setActive.
  destruct (ApiKeyManager.keyExists i _) eqn:E; [|done].
  by apply keyExists_spec in E.
Qed.

Lemma others_absent i keys : i ∉ ids keys -> others i keys = keys.
Proof.
  unfold others, ids. induction keys as [|k keys IH]; simpl; [done|].
  rewrite not_elem_of_cons. intros [Hne Hnin].
  rewrite bool_decide_eq_false_2 by done. simpl. by rewrite IH.
Qed.

Lemma others_present_length i keys :
  i ∈ ids keys -> (length (others i keys) < length keys)%nat.
Proof.
  unfold others, ids. induction keys as [|k keys IH]; simpl.
  - by intros ?%elem_of_nil.
  - intros Hin. destruct (decide (id k = i)) as [Heq|Hne].
    + rewrite bool_decide_eq_true_2 by done. simpl.
      pose proof (List.filter_length_le (fun k => negb (bool_decide (id k = i))) keys).
      lia.
    + rewrite bool_decide_eq_false_2 by done. simpl.
      apply elem_of_cons in Hin as [Hin|Hin]; [congruence|].
      specialize (IH Hin). lia.
Qed.

Lemma others_split i l1 e l2 :
  id e = i -> i ∉ ids (l1 ++ l2) -> others i (l1 ++ e :: l2) = l1 ++ l2.
Proof.
  intros He Hnin. unfold others. rewrite List.filter_app. simpl.
  rewrite bool_decide_eq_true_2 by done. simpl.
  unfold ids in Hnin. rewrite fmap_app, not_elem_of_app in Hnin.
  destruct Hnin as [H1 H2].
  fold (others i l1) (others i l2).
  by rewrite !others_absent.
Qed.

Lemma others_ids i keys j : j ∈ ids (others i keys) <-> j ∈ ids keys /\ j <> i.
Proof.
  unfold others, ids. rewrite !list_elem_of_fmap. split.
  - intros (k & -> & Hin). apply list_elem_of_In, List.filter_In in Hin as [Hin Hk].
    apply negb_true_iff, bool_decide_eq_false in Hk.
    split; [|done]. exists k. split; [done | by apply list_elem_of_In].
  - intros [(k & -> & Hin) Hne]. exists k. split; [done|].
    apply list_elem_of_In, List.filter_In. split; [by apply list_elem_of_In|].
    by apply negb_true_iff, bool_decide_eq_false.
Qed.

Lemma delete_absent i ls :
  i ∉ ids (ApiKeyManager.getAll ls) -> ApiKeyManager.delete i ls = (false, ls).
Proof.
  intros Hnin. unfold ApiKeyManager.delete. fold (others i (ApiKeyManager.getAll ls)).
  rewrite others_absent by done. by rewrite Nat.eqb_refl.
Qed.

Lemma delete_present i ls :
  i ∈ ids (ApiKeyManager.getAll ls) ->
  ApiKeyManager.delete i ls =
    (true,
     {| STORAGE_KEY := Some (others i (ApiKeyManager.getAll ls));
        ACTIVE_KEY_ID :=
          if bool_decide (ACTIVE_KEY_ID ls = Some i)
          then match others i (ApiKeyManager.getAll ls) with
               | first :: _ => Some (id first)
               | [] => None
               end
          else ACTIVE_KEY_ID ls |}).
Proof.
  intros Hin. pose proof (others_present_length i _ Hin) as Hlt.
  unfold ApiKeyManager.delete. fold (others i (ApiKeyManager.getAll ls)).
  destruct (Nat.eqb_spec (length (others i (ApiKeyManager.getAll ls)))
              (length (ApiKeyManager.getAll ls))) as [Heq|_]; [lia|].
  unfold ApiKeyManager.getActiveId. simpl.
  case_bool_decide; [|done].
  destruct (others i (ApiKeyManager.getAll ls)) as [|first rest] eqn:E; [done|].
  rewrite setActive_present; [done|]. simpl. left.
Qed.

(** C7. [delete(id)] returns false and changes nothing when no entry has
    that id. Otherwise it returns true and the stored list becomes the old
    one without the entries of that id, which is the old list with exactly
    that entry taken out when the id occurs once; if the deleted entry was
    active, the active pointer becomes the id of the first remaining entry,
    or is cleared when no entry remains; if it was not, the pointer is
    kept. *)
Theorem delete_spec (i : string) (ls : LocalStorage) :
  let keys := ApiKeyManager.getAll ls in
  let result := ApiKeyManager.delete i ls in
  (i ∉ ids keys -> result = (false, ls)) /\
  (i ∈ ids keys ->
     result.1 = true /\
     ApiKeyManager.getAll result.2 = others i keys /\
     (forall l1 e l2, keys = l1 ++ e :: l2 -> id e = i -> i ∉ ids (l1 ++ l2) ->
        ApiKeyManager.getAll result.2 = l1 ++ l2) /\
     (ApiKeyManager.getActiveId ls = Some i ->
        ApiKeyManager.getActiveId result.2 =
          match ApiKeyManager.getAll result.2 with
          | first :: _ => Some (id first)
          | [] => None
          end) /\
     (ApiKeyManager.getActiveId ls <> Some i ->
        ApiKeyManager.getActiveId result.2 = ApiKeyManager.getActiveId ls)).
Proof.
  intros keys result. subst result keys. split.
  - apply delete_absent.
  - intros Hin. rewrite delete_present by done.
    unfold ApiKeyManager.getActiveId. simpl. split_and!; [done..| | |].
    + intros l1 e l2 Hk He Hn. rewrite Hk. by apply others_split.
    + intros Hact. by rewrite bool_decide_eq_true_2.
    + intros Hact. by rewrite bool_decide_eq_false_2.
Qed.

Lemma tryRotate_few ls :
  (length (ApiKeyManager.getAll ls) <= 1)%nat -> tryRotateApiKey ls = (false, ls).
Proof.
  intros Hlen. unfold tryRotateApiKey.
  destruct (Nat.leb_spec (length (ApiKeyManager.getAll ls)) 1) as [_|Hgt]; [done|lia].
Qed.

(** C8. With no entry or a single entry, [tryRotateApiKey] returns false
    and leaves the storage, and so the active id, as it was. *)
Theorem rotate_nothing_to_rotate (ls : LocalStorage) :
  (length (ApiKeyManager.getAll ls) <= 1)%nat ->
  (tryRotateApiKey ls).1 = false /\
  (tryRotateApiKey ls).2 = ls /\
  ApiKeyManager.getActiveId (tryRotateApiKey ls).2 = ApiKeyManager.getActiveId ls.
Proof. intros Hlen. by rewrite tryRotate_few. Qed.

Lemma setActive_resolves i ls :
  activeResolves ls -> activeResolves (ApiKeyManager.setActive i ls).2.
Proof.
  intros Hinv. destruct (decide (i ∈ ids (ApiKeyManager.getAll ls))) as [Hin|Hnin].
  - rewrite setActive_present by done. exact Hin.
  - by rewrite setActive_absent.
Qed.

Lemma add_resolves now rnd now' nm k ls :
  activeResolves ls -> activeResolves (ApiKeyManager.add now rnd now' nm k ls).2.
Proof.
  intros Hinv. unfold ApiKeyManager.add. simpl.
  set (newKey := {| id := _; name := _; key := _; createdAt := _ |}).
  set (ls1 := setKeysItem (ApiKeyManager.getAll ls ++ [newKey]) ls).
  assert (H1 : activeResolves ls1).
  { unfold activeResolves, ApiKeyManager.getActiveId in *. subst ls1. simpl.
    destruct (ACTIVE_KEY_ID ls); [|done].
    rewrite getAll_setKeysItem. unfold ids in *. rewrite fmap_app.
    apply elem_of_app. by left. }
  destruct (_ =? 1)%nat; [|done]. by apply setActive_resolves.
Qed.

Lemma update_ids i nm k ls :
  ids (ApiKeyManager.getAll (ApiKeyManager.update i nm k ls).2) = ids (ApiKeyManager.getAll ls) /\
  ApiKeyManager.getActiveId (ApiKeyManager.update i nm k ls).2 = ApiKeyManager.getActiveId ls.
Proof.
  unfold ApiKeyManager.update.
  destruct (list_find _ _) as [[index old]|] eqn:E; [|done]. simpl.
  apply list_find_Some in E as (Hold & _ & _). split; [|done].
  rewrite getAll_setKeysItem. unfold ids. rewrite list_fmap_insert. simpl.
  apply list_insert_id. by rewrite list_lookup_fmap, Hold.
Qed.

Lemma delete_resolves i ls :
  activeResolves ls -> activeResolves (ApiKeyManager.delete i ls).2.
Proof.
  intros Hinv. destruct (decide (i ∈ ids (ApiKeyManager.getAll ls))) as [Hin|Hnin].
  - rewrite delete_present by done. unfold activeResolves in *. simpl.
    case_bool_decide as Hact.
    + destruct (others i _) as [|first rest]; [done|]. simpl. left.
    + unfold ApiKeyManager.getActiveId in Hinv.
      destruct (ACTIVE_KEY_ID ls) as [a|]; [|done].
      apply others_ids. split; [done | congruence].
  - by rewrite delete_absent.
Qed.

Lemma applyOp_resolves op ls : activeResolves ls -> activeResolves (applyOp op ls).
Proof.
  intros Hinv. destruct op; simpl.
  - by apply add_resolves.
  - destruct (update_ids i nm k ls) as [Hids Hact].
    unfold activeResolves in *. by rewrite Hact, Hids.
  - by apply delete_resolves.
  - by apply setActive_resolves.
  - done.
Qed.

(** C9. Starting from the empty store, after each operation of any
    sequence of [add], [update], [delete], [setActive] and [clearAll] the
    active pointer is unset or is the id of an entry of the store. *)
Theorem active_pointer_never_dangles (ops : list StoreOp) :
  Forall activeResolves (statesAfter ops emptyStorage).
Proof.
  assert (Hgen : forall ls, activeResolves ls -> Forall activeResolves (statesAfter ops ls)).
  { induction ops as [|op ops IH]; intros ls Hinv; simpl; [done|].
    pose proof (applyOp_resolves op ls Hinv). constructor; [done | by apply IH]. }
  by apply Hgen.
Qed.

(** *** Rotation *)

Lemma findIndex_unique keys j a :
  NoDup (ids keys) -> ids keys !! j = Some a ->
  ApiKeyManager.findIndex (fun k => bool_decide (Some (id k) = Some a)) keys = Z.of_nat j.
Proof.
  intros Hnd Hj. unfold ApiKeyManager.findIndex, ids in *.
  rewrite list_lookup_fmap in Hj.
  destruct (keys !! j) as [kj|] eqn:Hkj; simplify_eq/=.
  assert (Hfind : list_find (fun k => bool_decide (Some (id k) = Some (id kj)) = true) keys
                  = Some (j, kj)).
  { apply list_find_Some. split_and!; [done | |].
    - by apply bool_decide_eq_true.
    - intros i y Hy Hlt Hp. apply bool_decide_eq_true in Hp.
      assert (i = j); [|lia].
      eapply NoDup_lookup; [exact Hnd | |].
      + rewrite list_lookup_fmap, Hy. simpl. exact Hp.
      + by rewrite list_lookup_fmap, Hkj. }
  by rewrite Hfind.
Qed.

Lemma tryRotate_step ls j a :
  NoDup (ids (ApiKeyManager.getAll ls)) ->
  (2 <= length (ApiKeyManager.getAll ls))%nat ->
  ids (ApiKeyManager.getAll ls) !! j = Some a ->
  ApiKeyManager.getActiveId ls = Some a ->
  exists b,
    ids (ApiKeyManager.getAll ls) !! (S j mod length (ApiKeyManager.getAll ls))%nat = Some b /\
    tryRotateApiKey ls = (true, setActiveItem b ls).
Proof.
  intros Hnd Hlen Hj Hact. set (keys := ApiKeyManager.getAll ls) in *.
  assert (Hjlt : (j < length keys)%nat).
  { apply lookup_lt_Some in Hj. unfold ids in Hj. by rewrite length_fmap in Hj. }
  assert (Hmod : (S j mod length keys < length keys)%nat) by (apply Nat.mod_upper_bound; lia).
  destruct (lookup_lt_is_Some_2 keys _ Hmod) as [nextKey Hnext].
  exists (id nextKey).
  assert (Hb : ids keys !! (S j mod length keys)%nat = Some (id nextKey)).
  { unfold ids. by rewrite list_lookup_fmap, Hnext. }
  split; [done|].
  unfold tryRotateApiKey. fold keys. rewrite Hact.
  destruct (Nat.leb_spec (length keys) 1) as [Hle|_]; [lia|].
  rewrite (findIndex_unique keys j a) by done.
  replace (Z.to_nat (Z.rem (Z.of_nat j + 1) (Z.of_nat (length keys))))
    with (S j mod length keys)%nat.
  2:{ rewrite Z.rem_mod_nonneg by lia.
      rewrite <- (Nat2Z.id (S j mod length keys)).
      f_equal. rewrite Nat2Z.inj_mod. f_equal. lia. }
  rewrite Hnext.
  assert (Hne : id nextKey <> a).
  { intros Hid. rewrite Hid in Hb. assert (S j mod length keys = j)%nat as Heq.
    { eapply NoDup_lookup; [exact Hnd | exact Hb | exact Hj]. }
    destruct (decide (S j < length keys)%nat) as [Hlt|Hge].
    - rewrite Nat.mod_small in Heq by lia. lia.
    - assert (S j = length keys) as Hs by lia. rewrite Hs, Nat.Div0.mod_same in Heq. lia. }
  rewrite bool_decide_eq_false_2 by congruence. simpl.
  rewrite setActive_present; [done|]. fold keys.
  by apply list_elem_of_lookup_2 in Hb.
Qed.

Lemma rotateTimes_spec n : forall ls j a,
  NoDup (ids (ApiKeyManager.getAll ls)) ->
  (2 <= length (ApiKeyManager.getAll ls))%nat ->
  ids (ApiKeyManager.getAll ls) !! j = Some a ->
  ApiKeyManager.getActiveId ls = Some a ->
  let keys := ApiKeyManager.getAll ls in
  (rotateTimes n ls).1 =
    (fun m => (true, ids keys !! ((j + m) mod length keys)%nat)) <$> seq 1 n /\
  ApiKeyManager.getAll (rotateTimes n ls).2 = keys /\
  ApiKeyManager.getActiveId (rotateTimes n ls).2 = ids keys !! ((j + n) mod length keys)%nat.
Proof.
  induction n as [|n IH]; intros ls j a Hnd Hlen Hj Hact keys.
  - simpl. split_and!; [done..|]. subst keys.
    rewrite Nat.add_0_r, Nat.mod_small; [by rewrite Hact, Hj|].
    apply lookup_lt_Some in Hj. unfold ids in Hj. by rewrite length_fmap in Hj.
  - destruct (tryRotate_step ls j a Hnd Hlen Hj Hact) as (b & Hb & Hstep).
    fold keys in Hb.
    cbn [rotateTimes]. rewrite Hstep.
    specialize (IH (setActiveItem b ls) (S j mod length keys)%nat b).
    change (ApiKeyManager.getAll (setActiveItem b ls)) with keys in IH.
    destruct (IH Hnd Hlen Hb eq_refl) as (IH1 & IH2 & IH3).
    destruct (rotateTimes n (setActiveItem b ls)) as [rest ls2]. simpl in *.
    split_and!.
    + f_equal.
      * f_equal. rewrite <- Hb. f_equal. f_equal. lia.
      * rewrite IH1, <- (fmap_S_seq 1 n), <- list_fmap_compose.
        apply list_fmap_ext. intros _ m _. simpl. f_equal. f_equal.
        rewrite Nat.Div0.add_mod_idemp_l. f_equal. lia.
    + done.
    + rewrite IH3. f_equal. rewrite Nat.Div0.add_mod_idemp_l. f_equal. lia.
Qed.

Lemma round_robin_order (l : list string) i a :
  l !! i = Some a ->
  (fun m => l !! ((i + m) mod length l)%nat) <$> seq 1 (length l) =
  Some <$> (drop (S i) l ++ take i l ++ [a]).
Proof.
  intros Hi. pose proof (lookup_lt_Some _ _ _ Hi) as Hlt.
  rewrite <- (take_S_r l i a Hi).
  apply list_eq. intros p. rewrite !list_lookup_fmap.
  destruct (decide (p < length l)%nat) as [Hp|Hp].
  2:{ rewrite lookup_seq_ge by lia. simpl.
      rewrite lookup_ge_None_2; [done|].
      rewrite length_app, length_drop, length_take. lia. }
  rewrite lookup_seq_lt by lia. simpl.
  destruct (decide (p < length l - S i)%nat) as [H1|H1].
  - rewrite lookup_app_l by (rewrite length_drop; lia).
    rewrite lookup_drop. rewrite Nat.mod_small by lia.
    replace (i + S p)%nat with (S i + p)%nat by lia.
    destruct (l !! (S i + p)%nat) eqn:E; [done|].
    apply lookup_ge_None in E. lia.
  - rewrite lookup_app_r by (rewrite length_drop; lia).
    rewrite length_drop, lookup_take_lt by lia.
    replace (i + S p)%nat with ((p - (length l - S i)) + 1 * length l)%nat by lia.
    rewrite Nat.Div0.mod_add, Nat.mod_small by lia.
    destruct (l !! (p - (length l - S i))%nat) eqn:E; [done|].
    apply lookup_ge_None in E. lia.
Qed.

(** C4. In a store of [N >= 2] entries with pairwise distinct ids whose
    active id is that of the entry at position [i], [N] successive calls of
    [tryRotateApiKey] all return true; the active ids after the calls are
    the ids of the entries after position [i] in stored order, then those
    of the entries before position [i] in stored order, then the initial
    active id, so that every other entry is visited exactly once before the
    pointer is back at its initial value; the entry list is not changed. *)
Theorem rotation_round_robin (ls : LocalStorage) (i : nat) (a : string) :
  let keys := ApiKeyManager.getAll ls in
  NoDup (ids keys) ->
  (2 <= length keys)%nat ->
  ApiKeyManager.getActiveId ls = Some a ->
  ids keys !! i = Some a ->
  let run := rotateTimes (length keys) ls in
  run.1.*1 = replicate (length keys) true /\
  run.1.*2 = Some <$> (drop (S i) (ids keys) ++ take i (ids keys) ++ [a]) /\
  NoDup (drop (S i) (ids keys) ++ take i (ids keys)) /\
  (forall b, b ∈ drop (S i) (ids keys) ++ take i (ids keys) <-> b ∈ ids keys /\ b <> a) /\
  ApiKeyManager.getActiveId run.2 = Some a /\
  ApiKeyManager.getAll run.2 = keys.
Proof.
  intros keys Hnd Hlen Hact Hi run.
  destruct (rotateTimes_spec (length keys) ls i a Hnd Hlen Hi Hact) as (H1 & H2 & H3).
  fold keys run in H1, H2, H3.
  assert (Hlt : (i < length (ids keys))%nat) by (by apply lookup_lt_Some in Hi).
  assert (Hsplit : ids keys = take i (ids keys) ++ a :: drop (S i) (ids keys)).
  { by rewrite <- (take_drop_middle _ _ _ Hi) at 1. }
  assert (Hlen' : length (ids keys) = length keys) by (unfold ids; apply length_fmap).
  split_and!.
  - rewrite H1, <- list_fmap_compose. simpl.
    clear. generalize 1%nat. induction (length keys) as [|n IH]; intros s; simpl; [done|].
    by rewrite IH.
  - rewrite H1, <- list_fmap_compose. simpl.
    rewrite <- Hlen'. by apply round_robin_order.
  - rewrite Hsplit in Hnd. apply NoDup_app in Hnd as (Hn1 & Hn2 & Hn3).
    apply NoDup_cons in Hn3 as [Hn3 Hn4].
    apply NoDup_app. split_and!; [done| |done].
    intros x Hx1 Hx2. apply (Hn2 x); [done|]. by right.
  - intros b. rewrite Hsplit at 3. rewrite Hsplit in Hnd.
    apply NoDup_app in Hnd as (Hn1 & Hn2 & Hn3). apply NoDup_cons in Hn3 as [Hn3 Hn4].
    rewrite !elem_of_app, elem_of_cons. split.
    + intros [Hb|Hb].
      * split; [tauto|]. intros ->. done.
      * split; [tauto|]. intros ->. apply (Hn2 a); [done | by left].
    + intros [[Hb|[Hb|Hb]] Hne]; [tauto | done | tauto].
  - rewrite H3. rewrite <- (Nat.mul_1_l (length keys)) at 1.
    rewrite Nat.Div0.mod_add, Nat.mod_small by lia. done.
  - done.
Qed.

(** ** The rate-limit classifier *)

Lemma startsWith_spec pat s :
  JsString.startsWith pat s = true <-> exists after, s = pat +:+ after.
Proof.
  revert s. induction pat as [|a pat IH]; intros s; simpl.
  - split; [intros _; by exists s | done].
  - destruct s as [|b s].
    + split; [done | intros [after H]; discriminate H].
    + destruct (ascii_dec a b) as [->|Hne].
      * rewrite IH. split; intros [after H]; exists after.
        -- by rewrite H.
        -- by injection H.
      * split; [done | intros [after H]; injection H; congruence].
Qed.

Lemma includes_spec pat s :
  JsString.includes pat s = true <-> occursIn pat s.
Proof.
  unfold occursIn. induction s as [|c s IH]; simpl.
  - rewrite orb_false_r, startsWith_spec. split.
    + intros [after H]. by exists EmptyString, after.
    + intros (before & after & H). destruct before as [|b before]; [|discriminate H].
      by exists after.
  - rewrite orb_true_iff, IH, startsWith_spec. split.
    + intros [[after H]|(before & after & H)].
      * by exists EmptyString, after.
      * exists (String c before), after. simpl. by rewrite H.
    + intros (before & after & H). destruct before as [|b before].
      * left. by exists after.
      * right. exists before, after. simpl in H. by injection H.
Qed.

(** The text that the classifier inspects, by kind of error. *)
Lemma errorStr_cases :
  errorStr JsUndefined = "" /\
  errorStr JsNull = "" /\
  (forall s, errorStr (JsStr s) = s) /\
  (forall n m, m <> "" -> errorStr (JsError n m) = m) /\
  (forall n, errorStr (JsError n "") = n).
Proof.
  split_and!; try done.
  - by intros [|c s].
  - by intros n [|c m] Hm.
  - by intros [|c n].
Qed.

Lemma includes_false pat s :
  JsString.includes pat s = false <-> ~ occursIn pat s.
Proof. rewrite <- includes_spec. by destruct (JsString.includes pat s). Qed.


(** ** Traces *)

Lemma attempts_app t1 t2 : attempts (t1 ++ t2) = attempts t1 ++ attempts t2.
Proof. apply omap_app. Qed.

Lemma rotations_app t1 t2 : rotations (t1 ++ t2) = rotations t1 ++ rotations t2.
Proof. apply omap_app. Qed.

Lemma sleeps_app t1 t2 : sleeps (t1 ++ t2) = sleeps t1 ++ sleeps t2.
Proof. apply omap_app. Qed.

Lemma attempts_remote sent : attempts (EvRemote <$> sent) = [].
Proof. induction sent; [done | by simpl]. Qed.

Lemma rotations_remote sent : rotations (EvRemote <$> sent) = [].
Proof. induction sent; [done | by simpl]. Qed.

Lemma sleeps_remote sent : sleeps (EvRemote <$> sent) = [].
Proof. induction sent; [done | by simpl]. Qed.

Lemma attempts_backoff baseDelay attempt : attempts (backoff baseDelay attempt) = [].
Proof. unfold backoff. by destruct (0 <? attempt). Qed.

Lemma rotations_backoff baseDelay attempt : rotations (backoff baseDelay attempt) = [].
Proof. unfold backoff. by destruct (0 <? attempt). Qed.

Lemma totalSleep_app t1 t2 : totalSleep (t1 ++ t2) = totalSleep t1 + totalSleep t2.
Proof.
  unfold totalSleep. rewrite sleeps_app.
  induction (sleeps t1) as [|ms l IH]; simpl; [done | lia].
Qed.

Lemma totalSleep_remote sent : totalSleep (EvRemote <$> sent) = 0.
Proof. unfold totalSleep. by rewrite sleeps_remote. Qed.

Lemma totalSleep_backoff baseDelay attempt :
  totalSleep (backoff baseDelay attempt) =
    if 0 <? attempt then baseDelay * 2 ^ (attempt - 1) else 0.
Proof. unfold backoff, totalSleep. destruct (0 <? attempt); simpl; lia. Qed.

Create Rewrite HintDb trace.

#[local] Hint Rewrite attempts_app rotations_app attempts_remote rotations_remote
  attempts_backoff rotations_backoff totalSleep_app totalSleep_remote : trace.

(** Events that are not attempts only add their sleeps to the current gap. *)
Lemma suspensionsFrom_quiet t1 : forall acc t2,
  attempts t1 = [] ->
  suspensionsFrom acc (t1 ++ t2) = suspensionsFrom (acc + totalSleep t1) t2.
Proof.
  induction t1 as [|ev t1 IH]; intros acc t2 Hq; simpl.
  - unfold totalSleep. simpl. by rewrite Z.add_0_r.
  - destruct ev as [ms| | |]; simpl in Hq; [|done| |].
    + rewrite IH by done. f_equal. unfold totalSleep. simpl. lia.
    + by rewrite IH.
    + by rewrite IH.
Qed.

(** The gap before an attempt ends with the attempt. *)
Lemma suspensionsFrom_pass acc baseDelay attempt sent failure rest :
  suspensionsFrom acc
    (backoff baseDelay attempt ++ (EvRemote <$> sent) ++ [EvAttempt failure] ++ rest) =
  (acc + totalSleep (backoff baseDelay attempt)) :: suspensionsFrom 0 rest.
Proof.
  rewrite app_assoc, suspensionsFrom_quiet by (by autorewrite with trace).
  simpl. by autorewrite with trace; rewrite Z.add_0_r.
Qed.

(** ** One pass of the retry loop *)

Section PassProperties.

Context {R T : Type}.
Variable apiCall : Operation R T.
Variables maxRetries baseDelay : Z.

Lemma pass_returns attempt (w : World R) v r sent :
  apiCall (storage w) (backend w) = (Normal v, r, sent) ->
  pass apiCall maxRetries baseDelay attempt w =
    (Normal (Return v), mkWorld (storage w) r,
     backoff baseDelay attempt ++ (EvRemote <$> sent) ++ [EvAttempt None]).
Proof.
  intros Hcall. unfold pass, tryCatch, bind, call, backoff, sleep, ret.
  destruct (0 <? attempt); simpl; rewrite Hcall; simpl; by rewrite app_nil_r.
Qed.

Lemma pass_throws attempt (w : World R) e r sent :
  apiCall (storage w) (backend w) = (Throw e, r, sent) ->
  pass apiCall maxRetries baseDelay attempt w =
    let '(c, w', t) := onError maxRetries attempt e (mkWorld (storage w) r) in
    (c, w', backoff baseDelay attempt ++ (EvRemote <$> sent) ++ [EvAttempt (Some e)] ++ t).
Proof.
  intros Hcall. unfold pass, tryCatch, bind, call, backoff, sleep, ret.
  destruct (0 <? attempt); simpl; rewrite Hcall; simpl;
    destruct (onError _ _ _ _) as [[c w'] t]; by rewrite <- ?app_assoc.
Qed.

(** The last pass rethrows what it caught. *)
Lemma onError_last attempt e (w : World R) :
  attempt = maxRetries - 1 ->
  onError (T:=T) maxRetries attempt e w = (Throw e, w, []).
Proof.
  intros ->. unfold onError, bind, ret, throw.
  rewrite Z.ltb_irrefl, Z.eqb_refl. by destruct (isRateLimitError e).
Qed.

(** An error that is not a rate limit goes on to the next pass at once. *)
Lemma onError_other attempt e (w : World R) :
  isRateLimitError e = false -> attempt <> maxRetries - 1 ->
  onError (T:=T) maxRetries attempt e w = (Normal (Next e), w, []).
Proof.
  intros He Hne. unfold onError, bind, ret, throw. rewrite He. simpl.
  by destruct (Z.eqb_spec attempt (maxRetries - 1)).
Qed.

(** A rate limit before the last pass asks for a rotation, and waits when
    there was none. *)
Lemma onError_rate_limited attempt e (w : World R) :
  isRateLimitError e = true -> attempt < maxRetries - 1 ->
  onError (T:=T) maxRetries attempt e w =
    let '(rotated, ls) := tryRotateApiKey (storage w) in
    (Normal (Next e), mkWorld ls (backend w),
     EvRotate rotated :: if rotated then [] else [EvSleep (5000 * (attempt + 1))]).
Proof.
  intros He Hlt. unfold onError, bind, ret, throw, rotate, sleep. rewrite He.
  destruct (Z.ltb_spec attempt (maxRetries - 1)) as [_|?]; [|lia].
  destruct (tryRotateApiKey (storage w)) as [[|] ls]; simpl; [done|].
  destruct (Z.eqb_spec attempt (maxRetries - 1)) as [?|_]; [lia | done].
Qed.

(** Whatever the operation does, a pass makes one attempt, and it ends by
    [return] when the attempt succeeded, by [throw] of the error of the
    attempt when this was the last pass, and goes on otherwise. *)
Lemma pass_shape attempt (w : World R) :
  exists x, attempts (pass apiCall maxRetries baseDelay attempt w).2 = [x] /\
    match (pass apiCall maxRetries baseDelay attempt w).1.1 with
    | Normal (Return _) => x = None
    | Normal (Next e) => x = Some e /\ attempt <> maxRetries - 1
    | Throw e => x = Some e /\ attempt = maxRetries - 1
    end.
Proof.
  destruct (apiCall (storage w) (backend w)) as [[[v|e] r] sent] eqn:Hcall.
  - rewrite (pass_returns _ _ _ _ _ Hcall). simpl. exists None.
    autorewrite with trace. done.
  - rewrite (pass_throws _ _ _ _ _ Hcall). exists (Some e).
    destruct (decide (attempt = maxRetries - 1)) as [Hlast|Hne].
    + rewrite onError_last by done. simpl. by autorewrite with trace.
    + destruct (isRateLimitError e) eqn:He.
      * destruct (decide (attempt < maxRetries - 1)) as [Hlt|Hge].
        -- rewrite onError_rate_limited by done. simpl.
           destruct (tryRotateApiKey (storage w)) as [[|] ls]; simpl;
             by autorewrite with trace.
        -- unfold onError, bind, ret, throw. rewrite He.
           destruct (Z.ltb_spec attempt (maxRetries - 1)) as [?|_]; [lia|].
           destruct (Z.eqb_spec attempt (maxRetries - 1)) as [?|_]; [lia|].
           simpl. by autorewrite with trace.
      * rewrite onError_other by done. simpl. by autorewrite with trace.
Qed.

End PassProperties.

(** ** The retry loop *)

Section LoopProperties.

Context {R T : Type}.
Variable apiCall : Operation R T.
Variables maxRetries baseDelay : Z.

Lemma retryLoop_step left attempt lastError (w : World R) :
  retryLoop apiCall maxRetries baseDelay (S left) attempt lastError w =
    match pass apiCall maxRetries baseDelay attempt w with
    | (Normal (Return v), w1, t1) => (Normal v, w1, t1)
    | (Normal (Next e), w1, t1) =>
        let '(c, w2, t2) :=
          retryLoop apiCall maxRetries baseDelay left (attempt + 1) e w1 in
        (c, w2, t1 ++ t2)
    | (Throw e, w1, t1) => (Throw e, w1, t1)
    end.
Proof.
  cbn [retryLoop]. unfold bind at 1.
  destruct (pass _ _ _ _ _) as [[[[v|e]|e] w1] t1]; [|done..].
  unfold ret. by rewrite app_nil_r.
Qed.

(** The attempts of a run: failures, then either a success, with which the
    run returns, or the failure of the last pass, which the run throws. The
    run throws without an attempt only when there is no pass to make. *)
Lemma retryLoop_shape left : forall attempt lastError (w : World R),
  Z.of_nat left = maxRetries - attempt ->
  let run := retryLoop apiCall maxRetries baseDelay left attempt lastError w in
  match run.1.1 with
  | Normal _ =>
      exists errs, attempts run.2 = (Some <$> errs) ++ [None] /\
                   (length errs < left)%nat
  | Throw e =>
      (left = O /\ e = lastError /\ run.2 = []) \/
      (exists errs, attempts run.2 = (Some <$> errs) ++ [Some e] /\
                    S (length errs) = left)
  end.
Proof.
  induction left as [|left IH]; intros attempt lastError w Hleft run; subst run.
  - simpl. by left.
  - rewrite retryLoop_step.
    destruct (pass_shape apiCall maxRetries baseDelay attempt w) as (x & Hx & Hc).
    destruct (pass _ _ _ _ _) as [[[[v|e]|e] w1] t1]; simpl in Hx, Hc.
    + simpl. exists []. subst x. split; [done | simpl; lia].
    + destruct Hc as [-> Hne].
      specialize (IH (attempt + 1) e w1 ltac:(lia)). simpl in IH.
      destruct (retryLoop _ _ _ _ _ _ _) as [[[v|e2] w2] t2]; simpl in *.
      * destruct IH as (errs & Ht2 & Hlen). exists (e :: errs).
        rewrite attempts_app, Hx, Ht2. split; [done | simpl; lia].
      * right. destruct IH as [(-> & _)|(errs & Ht2 & Hlen)]; [lia|].
        exists (e :: errs). rewrite attempts_app, Hx, Ht2. split; [done | simpl; lia].
    + destruct Hc as [-> Hlast]. simpl. right. exists []. split; [done | simpl; lia].
Qed.

(** C6. With at least one attempt allowed, [executeWithRetry] throws [e]
    exactly when attempt number [maxRetries] took place and failed with [e]:
    a failure of the last attempt is thrown as it is and the run does not
    return, and nothing else is ever thrown. *)
Theorem terminal_failure_rethrown (w : World R) (e : JsValue) :
  1 <= maxRetries ->
  let run := executeWithRetry apiCall maxRetries baseDelay w in
  attemptNo maxRetries run.2 = Some (Some e) <-> run.1.1 = Throw e.
Proof.
  intros Hmax run. subst run. unfold executeWithRetry, attemptNo.
  destruct (Z.leb_spec 1 maxRetries) as [_|?]; [|lia].
  pose proof (retryLoop_shape (Z.to_nat maxRetries) 0 JsUndefined w ltac:(lia)) as Hshape.
  simpl in Hshape.
  destruct (retryLoop _ _ _ _ _ _ _) as [[[v|e2] w2] t2]; simpl in *.
  - destruct Hshape as (errs & Ht & Hlen). rewrite Ht. split; [|done].
    intros Hlook. apply lookup_app_Some in Hlook as [Hl|[Hge Hl]].
    + apply lookup_lt_Some in Hl. rewrite length_fmap in Hl. lia.
    + rewrite length_fmap in Hge, Hl.
      apply list_lookup_singleton_Some in Hl as [_ ?]. done.
  - destruct Hshape as [(Hz & _)|(errs & Ht & Hlen)]; [lia|].
    rewrite Ht.
    replace (Z.to_nat (maxRetries - 1)) with (length (Some <$> errs) + 0)%nat
      by (rewrite length_fmap; lia).
    rewrite lookup_app_r, Nat.add_comm, Nat.add_sub by lia. simpl.
    split; congruence.
Qed.

End LoopProperties.

(** ** Runs in which every attempt fails *)

Section FailingRun.

Context {R T : Type}.
Variable apiCall : Operation R T.
Variables maxRetries baseDelay : Z.

(** What holds of the world throughout the run, the events [tail attempt]
    that follow a failed attempt that is not the last one, and the rotation
    results [rot] in each such tail. *)
Variable inv : World R -> Prop.
Variable tail : Z -> list Event.
Variable rot : list bool.

Hypothesis tail_quiet : forall attempt, attempts (tail attempt) = [].
Hypothesis tail_rot : forall attempt, rotations (tail attempt) = rot.
Hypothesis failing_pass : forall attempt w,
  inv w -> 0 <= attempt < maxRetries ->
  exists e w' sent,
    inv w' /\
    pass apiCall maxRetries baseDelay attempt w =
      (if attempt =? maxRetries - 1 then Throw e else Normal (Next e), w',
       backoff baseDelay attempt ++ (EvRemote <$> sent) ++ [EvAttempt (Some e)] ++
       (if attempt =? maxRetries - 1 then [] else tail attempt)).

Lemma failing_loop left : forall attempt lastError w acc,
  inv w -> 0 <= attempt -> Z.of_nat left = maxRetries - attempt ->
  let run := retryLoop apiCall maxRetries baseDelay left attempt lastError w in
  inv run.1.2 /\
  (exists e, run.1.1 = Throw e) /\
  length (attempts run.2) = left /\
  rotations run.2 = mjoin (replicate (left - 1) rot) /\
  (forall k, (k < left)%nat ->
     suspensionsFrom acc run.2 !! k =
       Some (if decide (k = O) then acc + totalSleep (backoff baseDelay attempt)
             else totalSleep (tail (attempt + Z.of_nat k - 1)) +
                  totalSleep (backoff baseDelay (attempt + Z.of_nat k)))).
Proof.
  induction left as [|left IH]; intros attempt lastError w acc Hinv Hatt Hleft run;
    subst run.
  - simpl. split_and!; [done | by eexists | done | done | intros k ?; lia].
  - rewrite retryLoop_step.
    destruct (failing_pass attempt w Hinv ltac:(lia)) as (e & w1 & sent & Hinv1 & ->).
    destruct (Z.eqb_spec attempt (maxRetries - 1)) as [Hlast|Hne].
    + assert (left = O) as -> by lia. cbn [retryLoop fst snd].
      split_and!; [done | by eexists | | |].
      * by autorewrite with trace.
      * by autorewrite with trace.
      * intros k Hk. assert (k = O) as -> by lia.
        by rewrite suspensionsFrom_pass.
    + specialize (IH (attempt + 1) e w1 (totalSleep (tail attempt)) Hinv1
                    ltac:(lia) ltac:(lia)).
      cbn zeta in IH.
      destruct (retryLoop _ _ _ _ _ _ _) as [[c w2] t2]. cbn [fst snd] in *.
      destruct IH as (Hinv2 & Hthrow & Hlen & Hrot & Hsusp).
      split_and!; [done | done | | |].
      * autorewrite with trace. rewrite tail_quiet. simpl. by rewrite Hlen.
      * autorewrite with trace. rewrite tail_rot, Hrot. simpl.
        destruct left as [|left']; [lia|]. simpl. by rewrite Nat.sub_0_r.
      * intros k Hk. rewrite <- !app_assoc, suspensionsFrom_pass.
        rewrite suspensionsFrom_quiet by done.
        destruct k as [|k]; [done|].
        rewrite lookup_cons_ne_0 by lia.
        rewrite Nat.pred_succ, Z.add_0_l, Hsusp by lia.
        rewrite (decide_False (P:=S k = O)) by lia.
        replace (attempt + Z.of_nat (S k) - 1) with (attempt + 1 + Z.of_nat k - 1) by lia.
        replace (attempt + Z.of_nat (S k)) with (attempt + 1 + Z.of_nat k) by lia.
        case_decide as Hk0; [|done]. subst k.
        replace (attempt + 1 + Z.of_nat 0 - 1) with attempt by lia.
        replace (attempt + 1 + Z.of_nat 0) with (attempt + 1) by lia.
        done.
Qed.

(** The whole run, gap by gap: no suspension before the first attempt, and
    before attempt [n > 1] the tail of attempt [n - 1] and the backoff. *)
Lemma failing_run (w : World R) :
  inv w -> 0 <= maxRetries ->
  let run := executeWithRetry apiCall maxRetries baseDelay w in
  inv run.1.2 /\
  (exists e, run.1.1 = Throw e) /\
  length (attempts run.2) = Z.to_nat maxRetries /\
  rotations run.2 = mjoin (replicate (Z.to_nat (maxRetries - 1)) rot) /\
  (1 <= maxRetries -> suspensionBefore 1 run.2 = Some 0) /\
  (forall n, 2 <= n <= maxRetries ->
     suspensionBefore n run.2 =
       Some (baseDelay * 2 ^ (n - 2) + totalSleep (tail (n - 2)))).
Proof.
  intros Hinv Hmax run. subst run. unfold executeWithRetry, suspensionBefore, suspensions.
  destruct (failing_loop (Z.to_nat maxRetries) 0 JsUndefined w 0 Hinv ltac:(lia) ltac:(lia))
    as (H1 & H2 & H3 & H4 & H5).
  split_and!; [done | done | done | | |].
  - rewrite H4. do 2 f_equal. lia.
  - intros H. simpl. rewrite H5 by lia. simpl. done.
  - intros n Hn. destruct (Z.leb_spec 1 n) as [_|?]; [|lia].
    rewrite H5 by lia. rewrite decide_False by lia. f_equal.
    rewrite totalSleep_backoff.
    destruct (Z.ltb_spec 0 (0 + Z.of_nat (Z.to_nat (n - 1)))) as [_|?]; [|lia].
    replace (0 + Z.of_nat (Z.to_nat (n - 1)) - 1) with (n - 2) by lia.
    replace (0 + Z.of_nat (Z.to_nat (n - 1)) - 1) with (n - 2) by lia.
    lia.
Qed.

End FailingRun.

Lemma mjoin_replicate_nil {A} n : mjoin (replicate n (@nil A)) = [].
Proof. induction n; [done | by simpl]. Qed.

Lemma mjoin_replicate_singleton {A} n (x : A) : mjoin (replicate n [x]) = replicate n x.
Proof. induction n as [|n IH]; [done | simpl; by rewrite IH]. Qed.

Section Schedules.

Context {R T : Type}.
Variable apiCall : Operation R T.
Variables maxRetries baseDelay : Z.

(** C3. When every attempt fails with an error that is not a rate limit,
    the operation is called exactly [maxRetries] times, nothing is slept
    before attempt 1, exactly [baseDelay * 2^(n-2)] is slept between
    attempt [n - 1] and attempt [n], no rotation is asked for, and the run
    ends by throwing. *)
Theorem backoff_schedule (w : World R) :
  0 <= maxRetries ->
  alwaysFails false apiCall ->
  let run := executeWithRetry apiCall maxRetries baseDelay w in
  length (attempts run.2) = Z.to_nat maxRetries /\
  (1 <= maxRetries -> suspensionBefore 1 run.2 = Some 0) /\
  (forall n, 2 <= n <= maxRetries ->
     suspensionBefore n run.2 = Some (baseDelay * 2 ^ (n - 2))) /\
  rotations run.2 = [] /\
  (exists e, run.1.1 = Throw e).
Proof.
  intros Hmax Hfail run. subst run.
  destruct (failing_run apiCall maxRetries baseDelay (fun _ => True) (fun _ => []) [])
    with (w := w) as (_ & Hthrow & Hlen & Hrot & Hfirst & Hgap); try done.
  - intros attempt w0 _ Hatt.
    destruct (Hfail (storage w0) (backend w0)) as (e & r & sent & Hcall & He).
    exists e, (mkWorld (storage w0) r), sent. split; [done|].
    rewrite (pass_throws _ _ _ _ _ _ _ _ Hcall).
    destruct (Z.eqb_spec attempt (maxRetries - 1)) as [Hlast|Hne].
    + by rewrite onError_last.
    + by rewrite onError_other.
  - split_and!; [done | done | | | done].
    + intros n Hn. rewrite Hgap by done. f_equal. unfold totalSleep. simpl. lia.
    + by rewrite Hrot, mjoin_replicate_nil.
Qed.

(** C2, as the code has it. With a single stored credential and an
    operation whose every attempt fails with a rate limit, each rotation
    asked for returns false, there is one after each attempt but the last,
    the storage is left as it was, and the suspension between attempt
    [n - 1] and attempt [n] is the cooldown [5000 * (n - 1)] of the failed
    attempt [n - 1] followed by the backoff [baseDelay * 2^(n-2)]. *)
Theorem single_key_schedule (w : World R) :
  0 <= maxRetries ->
  length (ApiKeyManager.getAll (storage w)) = 1%nat ->
  alwaysFails true apiCall ->
  let run := executeWithRetry apiCall maxRetries baseDelay w in
  rotations run.2 = replicate (Z.to_nat (maxRetries - 1)) false /\
  storage run.1.2 = storage w /\
  length (attempts run.2) = Z.to_nat maxRetries /\
  (forall n, 2 <= n <= maxRetries ->
     suspensionBefore n run.2 = Some (baseDelay * 2 ^ (n - 2) + 5000 * (n - 1))).
Proof.
  intros Hmax Hone Hfail run. subst run.
  destruct (failing_run apiCall maxRetries baseDelay
              (fun w' => storage w' = storage w)
              (fun attempt => [EvRotate false; EvSleep (5000 * (attempt + 1))])
              [false])
    with (w := w) as (Hsame & _ & Hlen & Hrot & _ & Hgap); try done.
  - intros attempt w0 Hw0 Hatt.
    destruct (Hfail (storage w0) (backend w0)) as (e & r & sent & Hcall & He).
    exists e, (mkWorld (storage w0) r), sent. split; [done|].
    rewrite (pass_throws _ _ _ _ _ _ _ _ Hcall).
    destruct (Z.eqb_spec attempt (maxRetries - 1)) as [Hlast|Hne].
    + by rewrite onError_last.
    + rewrite onError_rate_limited by (done || lia). simpl.
      rewrite tryRotate_few by (rewrite Hw0; lia). done.
  - split_and!; [|done|done|].
    + by rewrite Hrot, mjoin_replicate_singleton.
    + intros n Hn. rewrite Hgap by done. f_equal. unfold totalSleep. simpl. lia.
Qed.

End Schedules.

(** ** The generation façade without a usable credential *)

Lemma NO_API_KEY_not_rate_limit : isRateLimitError (newError NO_API_KEY) = false.
Proof. vm_compute. reflexivity. Qed.

Lemma ifKey_noUsableKey {A} apiKey (absent : A) present :
  noUsableKey apiKey -> ifKey apiKey absent present = absent.
Proof. by intros [->| ->]. Qed.

Lemma trimStart_allWhiteSpace s :
  JsString.allWhiteSpace s = true -> JsString.trimStart s = "".
Proof.
  induction s as [|c s IH]; simpl; [done|].
  intros [Hc Hs]%andb_true_iff. rewrite Hc. by apply IH.
Qed.

Lemma trim_allWhiteSpace s :
  JsString.allWhiteSpace s = true -> JsString.trim s = "".
Proof. intros H. unfold JsString.trim. by rewrite trimStart_allWhiteSpace. Qed.

(** A credential added to an empty store with a secret made of white space
    only becomes the active one, with the empty secret. *)
Lemma add_blank_secret now rnd now' nm k :
  JsString.allWhiteSpace k = true ->
  let added := ApiKeyManager.add now rnd now' nm k emptyStorage in
  ApiKeyManager.getActive added.2 = Some added.1 /\ key added.1 = "".
Proof.
  intros Hk. unfold ApiKeyManager.add. simpl.
  rewrite setActive_present by (rewrite getAll_setKeysItem; simpl; left).
  split; [|by apply trim_allWhiteSpace].
  unfold ApiKeyManager.getActive, ApiKeyManager.getActiveId, ApiKeyManager.freshId.
  simpl. by rewrite bool_decide_eq_true_2.
Qed.

Section RetryOfConstantFailure.

Context {R T : Type}.
Variable apiCall : Operation R T.
Variable ls : LocalStorage.
Variable err : JsValue.

Hypothesis fails : forall r, apiCall ls r = (Throw err, r, []).
Hypothesis unclassified : isRateLimitError err = false.

Lemma failed_pass maxRetries baseDelay attempt r :
  pass apiCall maxRetries baseDelay attempt (mkWorld ls r) =
    (if attempt =? maxRetries - 1 then Throw err else Normal (Next err),
     mkWorld ls r, backoff baseDelay attempt ++ [EvAttempt (Some err)]).
Proof.
  rewrite (pass_throws apiCall maxRetries baseDelay attempt (mkWorld ls r)
             err r [] (fails r)).
  destruct (Z.eqb_spec attempt (maxRetries - 1)) as [Hlast|Hne].
  - by rewrite onError_last.
  - by rewrite onError_other.
Qed.

Lemma three_failed_attempts baseDelay r :
  executeWithRetry apiCall 3 baseDelay (mkWorld ls r) =
    (Throw err, mkWorld ls r,
     [EvAttempt (Some err); EvSleep (baseDelay * 1);
      EvAttempt (Some err); EvSleep (baseDelay * 2);
      EvAttempt (Some err)]).
Proof.
  unfold executeWithRetry. change (Z.to_nat 3) with 3%nat.
  rewrite retryLoop_step, failed_pass. change (0 =? 3 - 1) with false. cbv iota beta.
  rewrite retryLoop_step, failed_pass. change (0 + 1 =? 3 - 1) with false. cbv iota beta.
  rewrite retryLoop_step, failed_pass. change (0 + 1 + 1 =? 3 - 1) with true.
  reflexivity.
Qed.

Lemma two_failed_attempts baseDelay r :
  executeWithRetry apiCall 2 baseDelay (mkWorld ls r) =
    (Throw err, mkWorld ls r,
     [EvAttempt (Some err); EvSleep (baseDelay * 1); EvAttempt (Some err)]).
Proof.
  unfold executeWithRetry. change (Z.to_nat 2) with 2%nat.
  rewrite retryLoop_step, failed_pass. change (0 =? 2 - 1) with false. cbv iota beta.
  rewrite retryLoop_step, failed_pass. change (0 + 1 =? 2 - 1) with true.
  reflexivity.
Qed.

End RetryOfConstantFailure.

Section FacadeProperties.

Context {R Designs Abstract : Type}.
Variable requestDesigns : string -> R -> Completion Designs * R.
Variable requestImage : string -> R -> Completion (option string) * R.
Variable requestDocumentation : string -> R -> Completion (option string) * R.
Variable requestAbstract : string -> R -> Completion (option Abstract) * R.

(** What the four functions do when [!apiKey] holds. The two that check the
    credential inside the closure go through every attempt and every
    backoff of their budget; the two that check it first return at once. *)
Lemma facade_without_usable_key (w : World R) :
  noUsableKey (ApiKeyManager.getActiveKey (storage w)) ->
  generateDesigns requestDesigns w =
    (Throw (newError NO_API_KEY), w,
     [EvAttempt (Some (newError NO_API_KEY)); EvSleep 3000;
      EvAttempt (Some (newError NO_API_KEY)); EvSleep 6000;
      EvAttempt (Some (newError NO_API_KEY))]) /\
  generateImageForDesign requestImage w =
    (Normal None, w,
     [EvAttempt (Some (newError NO_API_KEY)); EvSleep 2000;
      EvAttempt (Some (newError NO_API_KEY))]) /\
  generatePartDocumentation requestDocumentation w = (Normal None, w, []) /\
  generateRealPartAbstract requestAbstract w = (Normal None, w, []).
Proof.
  intros Hkey. destruct w as [ls r]. simpl in Hkey. split_and!.
  - unfold generateDesigns.
    rewrite (three_failed_attempts _ ls (newError NO_API_KEY)); [done | |].
    + intros r'. simpl. by rewrite ifKey_noUsableKey.
    + apply NO_API_KEY_not_rate_limit.
  - unfold generateImageForDesign, tryCatch.
    rewrite (two_failed_attempts _ ls (newError NO_API_KEY)); [done | |].
    + intros r'. simpl. by rewrite ifKey_noUsableKey.
    + apply NO_API_KEY_not_rate_limit.
  - unfold generatePartDocumentation, bind, readActiveKey. simpl.
    by rewrite ifKey_noUsableKey.
  - unfold generateRealPartAbstract, bind, readActiveKey. simpl.
    by rewrite ifKey_noUsableKey.
Qed.

(** C1, on the code. With no credential configured, none of the four
    functions sends a request, and [generatePartDocumentation] and
    [generateRealPartAbstract] return their absent result at once, without
    an attempt or a sleep. [generateDesigns] and [generateImageForDesign]
    however run the retry loop: the closure is called 3 times with sleeps
    of 3000 and 6000 before the error is thrown, and 2 times with a sleep
    of 2000 before the absent result is returned. *)
Theorem generation_without_credential (w : World R) :
  ApiKeyManager.getActiveKey (storage w) = None ->
  let designs := generateDesigns requestDesigns w in
  let image := generateImageForDesign requestImage w in
  let documentation := generatePartDocumentation requestDocumentation w in
  let abstract := generateRealPartAbstract requestAbstract w in
  (remoteCalls designs.2 = [] /\ remoteCalls image.2 = [] /\
   remoteCalls documentation.2 = [] /\ remoteCalls abstract.2 = []) /\
  (documentation = (Normal None, w, []) /\ abstract = (Normal None, w, [])) /\
  (designs.1.1 = Throw (newError NO_API_KEY) /\
   length (attempts designs.2) = 3%nat /\ sleeps designs.2 = [3000; 6000]) /\
  (image.1.1 = Normal None /\
   length (attempts image.2) = 2%nat /\ sleeps image.2 = [2000]).
Proof.
  intros Hkey designs image documentation abstract.
  destruct (facade_without_usable_key w) as (H1 & H2 & H3 & H4); [by left|].
  subst designs image documentation abstract. by rewrite H1, H2, H3, H4.
Qed.

(** C10. When the secret of the active credential is the empty string,
    [getActiveKey] returns the empty string, and each of the four functions
    ends as it does, and leaves the trace it leaves, in a world where
    [getActiveKey] returns [null]; it sends no request and leaves the world
    as it was. *)
Theorem empty_secret_as_no_credential (w w0 : World R) (e : ApiKeyEntry) :
  ApiKeyManager.getActive (storage w) = Some e ->
  key e = "" ->
  ApiKeyManager.getActiveKey (storage w0) = None ->
  ApiKeyManager.getActiveKey (storage w) = Some "" /\
  (sameRun (generateDesigns requestDesigns) w w0 /\
   sameRun (generateImageForDesign requestImage) w w0 /\
   sameRun (generatePartDocumentation requestDocumentation) w w0 /\
   sameRun (generateRealPartAbstract requestAbstract) w w0) /\
  (remoteCalls (generateDesigns requestDesigns w).2 = [] /\
   remoteCalls (generateImageForDesign requestImage w).2 = [] /\
   remoteCalls (generatePartDocumentation requestDocumentation w).2 = [] /\
   remoteCalls (generateRealPartAbstract requestAbstract w).2 = []) /\
  ((generateDesigns requestDesigns w).1.2 = w /\
   (generateImageForDesign requestImage w).1.2 = w /\
   (generatePartDocumentation requestDocumentation w).1.2 = w /\
   (generateRealPartAbstract requestAbstract w).1.2 = w).
Proof.
  intros Hactive Hkey Hnone.
  assert (Hempty : ApiKeyManager.getActiveKey (storage w) = Some "").
  { unfold ApiKeyManager.getActiveKey. by rewrite Hactive, Hkey. }
  destruct (facade_without_usable_key w) as (H1 & H2 & H3 & H4);
    [right; exact Hempty|].
  destruct (facade_without_usable_key w0) as (G1 & G2 & G3 & G4); [by left|].
  unfold sameRun. by rewrite H1, H2, H3, H4, G1, G2, G3, G4.
Qed.

End FacadeProperties.

(** * The properties on the sample data *)

Lemma rateLimited_alwaysFails : alwaysFails true rateLimited.
Proof. intros ls r. by eexists _, _, _. Qed.

Lemma networkDown_alwaysFails : alwaysFails false networkDown.
Proof. intros ls r. by eexists _, _, _. Qed.

(** C2, as stated, fails. With one credential, 3 attempts and a base delay
    of 3000, the suspension between attempt 1 and attempt 2 is
    5000 + 3000 = 8000, not the 3000 + 5000 * 2 = 13000 of the formula with
    [5000 * n]. *)
Lemma single_key_cooldown_not_5000n :
  let w := mkWorld oneKey tt in
  let run := executeWithRetry rateLimited 3 3000 w in
  length (ApiKeyManager.getAll (storage w)) = 1%nat /\
  alwaysFails true rateLimited /\
  rotations run.2 = [false; false] /\
  suspensionBefore 2 run.2 = Some 8000 /\
  ~ (forall n, 2 <= n <= 3 ->
       suspensionBefore n run.2 = Some (3000 * 2 ^ (n - 2) + 5000 * n)).
Proof.
  split_and!; [done | apply rateLimited_alwaysFails | done | done |].
  intros H. specialize (H 2 ltac:(lia)). vm_compute in H. discriminate H.
Qed.

Lemma single_key_schedule_witness :
  let w := mkWorld oneKey tt in
  let run := executeWithRetry rateLimited 3 3000 w in
  0 <= 3 /\
  length (ApiKeyManager.getAll (storage w)) = 1%nat /\
  alwaysFails true rateLimited /\
  rotations run.2 = replicate (Z.to_nat (3 - 1)) false /\
  storage run.1.2 = storage w /\
  length (attempts run.2) = Z.to_nat 3 /\
  (forall n, 2 <= n <= 3 ->
     suspensionBefore n run.2 = Some (3000 * 2 ^ (n - 2) + 5000 * (n - 1))).
Proof.
  split; [lia|]. split; [reflexivity|]. split; [apply rateLimited_alwaysFails|].
  apply (single_key_schedule rateLimited 3 3000 (mkWorld oneKey tt));
    [lia | reflexivity | apply rateLimited_alwaysFails].
Defined.

Lemma backoff_schedule_witness :
  let w := mkWorld oneKey tt in
  let run := executeWithRetry networkDown 3 3000 w in
  0 <= 3 /\
  alwaysFails false networkDown /\
  length (attempts run.2) = Z.to_nat 3 /\
  (1 <= 3 -> suspensionBefore 1 run.2 = Some 0) /\
  (forall n, 2 <= n <= 3 -> suspensionBefore n run.2 = Some (3000 * 2 ^ (n - 2))) /\
  rotations run.2 = [] /\
  (exists e, run.1.1 = Throw e).
Proof.
  split; [lia|]. split; [apply networkDown_alwaysFails|].
  apply (backoff_schedule networkDown 3 3000 (mkWorld oneKey tt));
    [lia | apply networkDown_alwaysFails].
Defined.

Lemma rotation_round_robin_witness :
  let run := rotateTimes 3 threeKeys in
  NoDup (ids (ApiKeyManager.getAll threeKeys)) /\
  (2 <= length (ApiKeyManager.getAll threeKeys))%nat /\
  ApiKeyManager.getActiveId threeKeys = Some (id keyA) /\
  ids (ApiKeyManager.getAll threeKeys) !! 0%nat = Some (id keyA) /\
  run.1.*1 = [true; true; true] /\
  run.1.*2 = [Some (id keyB); Some (id keyC); Some (id keyA)] /\
  ApiKeyManager.getActiveId run.2 = Some (id keyA).
Proof.
  assert (Hnd : NoDup (ids (ApiKeyManager.getAll threeKeys))) by compute_done.
  assert (Hlen : (2 <= length (ApiKeyManager.getAll threeKeys))%nat) by (simpl; lia).
  destruct (rotation_round_robin threeKeys 0 (id keyA) Hnd Hlen eq_refl eq_refl)
    as (H1 & H2 & _ & _ & H5 & _).
  split_and!; [exact Hnd | exact Hlen | reflexivity | reflexivity
              | exact H1 | exact H2 | exact H5].
Defined.

Lemma terminal_failure_rethrown_witness :
  let w := mkWorld oneKey tt in
  let run := executeWithRetry networkDown 3 3000 w in
  1 <= 3 /\
  (attemptNo 3 run.2 = Some (Some (newError "network unreachable")) <->
   run.1.1 = Throw (newError "network unreachable")).
Proof.
  split; [lia|].
  apply (terminal_failure_rethrown networkDown 3 3000 (mkWorld oneKey tt)). lia.
Defined.

Lemma rotate_nothing_to_rotate_witness :
  (length (ApiKeyManager.getAll oneKey) <= 1)%nat /\
  (tryRotateApiKey oneKey).1 = false /\
  (tryRotateApiKey oneKey).2 = oneKey /\
  ApiKeyManager.getActiveId (tryRotateApiKey oneKey).2 = ApiKeyManager.getActiveId oneKey.
Proof.
  split; [simpl; lia|]. apply (rotate_nothing_to_rotate oneKey). simpl. lia.
Defined.

Lemma generation_without_credential_witness :
  let w := mkWorld emptyStorage tt in
  let designs := generateDesigns (answer 1%nat) w in
  ApiKeyManager.getActiveKey (storage w) = None /\
  designs.1.1 = Throw (newError NO_API_KEY) /\
  length (attempts designs.2) = 3%nat /\
  sleeps designs.2 = [3000; 6000].
Proof.
  split; [reflexivity|].
  apply (generation_without_credential (answer 1%nat) (answer None) (answer None)
           (answer (@None nat)) (mkWorld emptyStorage tt)).
  reflexivity.
Defined.

Lemma empty_secret_as_no_credential_witness :
  let w := mkWorld blankSecret.2 tt in
  let w0 := mkWorld emptyStorage tt in
  ApiKeyManager.getActive (storage w) = Some blankSecret.1 /\
  key blankSecret.1 = "" /\
  ApiKeyManager.getActiveKey (storage w0) = None /\
  ApiKeyManager.getActiveKey (storage w) = Some "" /\
  sameRun (generateDesigns (answer 1%nat)) w w0 /\
  remoteCalls (generateDesigns (answer 1%nat) w).2 = [].
Proof.
  pose proof (empty_secret_as_no_credential (answer 1%nat) (answer None) (answer None)
                (answer (@None nat)) (mkWorld blankSecret.2 tt)
                (mkWorld emptyStorage tt) blankSecret.1
                eq_refl eq_refl eq_refl) as (H1 & (H2 & _) & (H3 & _) & _).
  split_and!; [reflexivity | reflexivity | reflexivity | exact H1 | exact H2 | exact H3].
Defined.

(** * Further properties of the credential store *)

Lemma freshId_not_empty now rnd : ApiKeyManager.freshId now rnd <> "".
Proof. unfold ApiKeyManager.freshId. simpl. discriminate. Qed.

Lemma truthy_spec s : JsString.truthy s = true <-> s <> "".
Proof. by destruct s. Qed.

Lemma find_first_split (i : string) keys :
  i ∈ ids keys ->
  exists l1 e l2,
    keys = l1 ++ e :: l2 /\ id e = i /\ (i ∉ ids l1) /\
    List.find (fun k => bool_decide (id k = i)) keys = Some e /\
    list_find (fun k => id k = i) keys = Some (length l1, e).
Proof.
  induction keys as [|k keys IH]; [by intros ?%elem_of_nil|].
  intros Hin. destruct (decide (id k = i)) as [Hk|Hk].
  - exists [], k, keys. simpl. rewrite bool_decide_eq_true_2 by done.
    rewrite decide_True by done.
    split_and!; [done | done | apply not_elem_of_nil | done | done].
  - change (ids (k :: keys)) with (id k :: ids keys) in Hin.
    apply elem_of_cons in Hin as [Hin|Hin]; [congruence|].
    destruct (IH Hin) as (l1 & e & l2 & -> & He & Hl1 & Hfind & Hlf).
    exists (k :: l1), e, l2. simpl. rewrite bool_decide_eq_false_2 by done.
    rewrite decide_False by done. rewrite Hlf. simpl.
    split_and!; [done | done | | done | done].
    change (ids (k :: l1)) with (id k :: ids l1). rewrite not_elem_of_cons. done.
Qed.

Lemma find_absent (i : string) keys :
  i ∉ ids keys ->
  List.find (fun k => bool_decide (id k = i)) keys = None /\
  list_find (fun k => id k = i) keys = None.
Proof.
  intros Hnin. split.
  - destruct (List.find _ keys) as [e|] eqn:E; [|done].
    apply List.find_some in E as [Hin He]. apply bool_decide_eq_true in He.
    destruct Hnin. unfold ids. apply list_elem_of_fmap. exists e.
    split; [done | by apply list_elem_of_In].
  - apply list_find_None. apply Forall_forall. intros e Hin He.
    destruct Hnin. unfold ids. apply list_elem_of_fmap. by exists e.
Qed.

(** The active entry, from the active id. *)
Lemma getActive_resolves ls a :
  ApiKeyManager.getActiveId ls = Some a -> a <> "" ->
  a ∈ ids (ApiKeyManager.getAll ls) ->
  exists l1 e l2,
    ApiKeyManager.getAll ls = l1 ++ e :: l2 /\ id e = a /\ (a ∉ ids l1) /\
    ApiKeyManager.getActive ls = Some e.
Proof.
  intros Hact Ha Hin.
  destruct (find_first_split a _ Hin) as (l1 & e & l2 & Hk & He & Hl1 & Hfind & _).
  exists l1, e, l2. split_and!; [done..|].
  unfold ApiKeyManager.getActive. rewrite Hact.
  apply truthy_spec in Ha. by rewrite Ha.
Qed.

Lemma getAll_stored keys a :
  ApiKeyManager.getAll {| STORAGE_KEY := Some keys; ACTIVE_KEY_ID := a |} = keys.
Proof. reflexivity. Qed.

(** [add] in closed form. *)
Lemma add_closed now rnd now' nm k (ls : LocalStorage) :
  ApiKeyManager.add now rnd now' nm k ls =
    let e := {| id := ApiKeyManager.freshId now rnd; name := JsString.trim nm;
                key := JsString.trim k; createdAt := now' |} in
    (e, {| STORAGE_KEY := Some (ApiKeyManager.getAll ls ++ [e]);
           ACTIVE_KEY_ID :=
             match ApiKeyManager.getAll ls with
             | [] => Some (id e)
             | _ :: _ => ACTIVE_KEY_ID ls
             end |}).
Proof.
  unfold ApiKeyManager.add. destruct (ApiKeyManager.getAll ls) as [|first rest]; simpl.
  - unfold ApiKeyManager.setActive. simpl. by rewrite bool_decide_eq_true_2.
  - rewrite length_app. simpl. by rewrite Nat.add_comm.
Qed.

(** X1. [add] appends the new entry, with trimmed name and secret, after
    the stored ones and reports that keys exist; on an empty list the new
    entry becomes the active one, which [getActive] and [getActiveKey] then
    return; on a list that is not empty the active id is left as it was. *)
Theorem add_appends_and_activates_first now rnd now' nm k (ls : LocalStorage) :
  let added := ApiKeyManager.add now rnd now' nm k ls in
  name added.1 = JsString.trim nm /\
  key added.1 = JsString.trim k /\
  ApiKeyManager.getAll added.2 = ApiKeyManager.getAll ls ++ [added.1] /\
  ApiKeyManager.hasKeys added.2 = true /\
  (ApiKeyManager.getAll ls = [] ->
     ApiKeyManager.getActiveId added.2 = Some (id added.1) /\
     ApiKeyManager.getActive added.2 = Some added.1 /\
     ApiKeyManager.getActiveKey added.2 = Some (JsString.trim k)) /\
  (ApiKeyManager.getAll ls <> [] ->
     ApiKeyManager.getActiveId added.2 = ApiKeyManager.getActiveId ls).
Proof.
  intros added. subst added. rewrite add_closed. cbn zeta. cbn [fst snd].
  set (e := {| id := _; name := _; key := _; createdAt := _ |}).
  split_and!; [done | done | done | | |].
  - unfold ApiKeyManager.hasKeys. rewrite getAll_stored.
    rewrite length_app. simpl. apply Nat.ltb_lt. lia.
  - intros Hempty. rewrite Hempty.
    assert (Hget : ApiKeyManager.getActive
                     {| STORAGE_KEY := Some ([] ++ [e]); ACTIVE_KEY_ID := Some (id e) |}
                   = Some e).
    { unfold ApiKeyManager.getActive. simpl. by rewrite bool_decide_eq_true_2. }
    unfold ApiKeyManager.getActiveKey. by rewrite Hget.
  - intros Hne. unfold ApiKeyManager.getActiveId. cbn [ACTIVE_KEY_ID].
    by destruct (ApiKeyManager.getAll ls).
Qed.

Lemma others_snoc i l e : id e = i -> i ∉ ids l -> others i (l ++ [e]) = l.
Proof.
  intros He Hl. rewrite <- (app_nil_r l) at 2. apply others_split; [done|].
  by rewrite app_nil_r.
Qed.

(** X2. Adding an entry whose generated id is not yet stored and deleting
    it again gives back the entry list and the active id, provided the
    active id was unset or that of a stored entry. *)
Theorem add_then_delete now rnd now' nm k (ls : LocalStorage) :
  ApiKeyManager.freshId now rnd ∉ ids (ApiKeyManager.getAll ls) ->
  activeResolves ls ->
  let added := ApiKeyManager.add now rnd now' nm k ls in
  let deleted := ApiKeyManager.delete (id added.1) added.2 in
  deleted.1 = true /\
  ApiKeyManager.getAll deleted.2 = ApiKeyManager.getAll ls /\
  ApiKeyManager.getActiveId deleted.2 = ApiKeyManager.getActiveId ls.
Proof.
  intros Hfresh Hres added deleted. subst deleted added.
  rewrite add_closed. cbn zeta. cbn [fst snd].
  set (e := {| id := _; name := _; key := _; createdAt := _ |}).
  assert (Hid : id e = ApiKeyManager.freshId now rnd) by done.
  rewrite delete_present.
  2:{ rewrite getAll_stored. unfold ids. rewrite fmap_app. apply elem_of_app.
      right. simpl. left. }
  rewrite getAll_stored, others_snoc by done. cbn [fst snd ACTIVE_KEY_ID].
  split_and!; [done | done |].
  unfold ApiKeyManager.getActiveId. cbn [ACTIVE_KEY_ID].
  unfold activeResolves, ApiKeyManager.getActiveId in Hres.
  assert (Hne : ACTIVE_KEY_ID ls <> Some (id e)).
  { intros Heq. rewrite Heq, Hid in Hres. done. }
  destruct (ApiKeyManager.getAll ls) as [|first rest] eqn:Hkeys.
  - rewrite bool_decide_eq_true_2 by done.
    destruct (ACTIVE_KEY_ID ls) as [a|]; [by apply elem_of_nil in Hres | done].
  - by rewrite bool_decide_eq_false_2.
Qed.

Lemma update_absent i nm k ls :
  i ∉ ids (ApiKeyManager.getAll ls) -> ApiKeyManager.update i nm k ls = (false, ls).
Proof.
  intros Hnin. unfold ApiKeyManager.update.
  by destruct (find_absent i _ Hnin) as [_ ->].
Qed.

Lemma update_present i nm k ls :
  i ∈ ids (ApiKeyManager.getAll ls) ->
  exists l1 old l2,
    ApiKeyManager.getAll ls = l1 ++ old :: l2 /\ id old = i /\ (i ∉ ids l1) /\
    ApiKeyManager.update i nm k ls =
      (true,
       setKeysItem
         (l1 ++ {| id := i; name := JsString.trim nm; key := JsString.trim k;
                   createdAt := createdAt old |} :: l2) ls).
Proof.
  intros Hin.
  destruct (find_first_split i _ Hin) as (l1 & old & l2 & Hk & Hold & Hl1 & _ & Hfind).
  exists l1, old, l2. split_and!; [done..|].
  unfold ApiKeyManager.update. rewrite Hfind, Hk, Hold.
  do 2 f_equal. rewrite <- (Nat.add_0_r (length l1)). by rewrite insert_app_r.
Qed.

(** X3. [update] with an id that is not stored returns false and writes
    nothing. With a stored id it returns true and rewrites only the first
    entry of that id, whose name and secret become the trimmed arguments
    while its id and creation time stay; the ids, their order and the
    active id are kept. *)
Theorem update_spec (i nm k : string) (ls : LocalStorage) :
  let keys := ApiKeyManager.getAll ls in
  let result := ApiKeyManager.update i nm k ls in
  (i ∉ ids keys -> result = (false, ls)) /\
  (i ∈ ids keys ->
     result.1 = true /\
     (exists l1 old l2,
        keys = l1 ++ old :: l2 /\ id old = i /\ (i ∉ ids l1) /\
        ApiKeyManager.getAll result.2 =
          l1 ++ {| id := i; name := JsString.trim nm; key := JsString.trim k;
                   createdAt := createdAt old |} :: l2) /\
     ids (ApiKeyManager.getAll result.2) = ids keys /\
     createdAt <$> ApiKeyManager.getAll result.2 = createdAt <$> keys /\
     ApiKeyManager.getActiveId result.2 = ApiKeyManager.getActiveId ls).
Proof.
  intros keys result. subst keys result. split; [apply update_absent|].
  intros Hin. destruct (update_present i nm k ls Hin) as (l1 & old & l2 & Hk & Hold & Hl1 & ->).
  cbn [fst snd]. rewrite getAll_setKeysItem, Hk.
  split_and!; [done | | | | done].
  - by exists l1, old, l2.
  - unfold ids. rewrite !fmap_app, !fmap_cons. simpl. by rewrite Hold.
  - by rewrite !fmap_app, !fmap_cons.
Qed.

(** X4. After [update] on the active entry, [getActiveKey] returns the
    trimmed new secret: the next generation call reads the edited
    credential. *)
Theorem update_active_key (i nm k : string) (ls : LocalStorage) :
  ApiKeyManager.getActiveId ls = Some i ->
  i <> "" ->
  i ∈ ids (ApiKeyManager.getAll ls) ->
  ApiKeyManager.getActiveKey (ApiKeyManager.update i nm k ls).2 = Some (JsString.trim k).
Proof.
  intros Hact Hi Hin.
  destruct (update_present i nm k ls Hin) as (l1 & old & l2 & Hk & Hold & Hl1 & ->).
  cbn [snd].
  set (new := {| id := i; name := _; key := _; createdAt := _ |}).
  destruct (getActive_resolves (setKeysItem (l1 ++ new :: l2) ls) i)
    as (l1' & e & l2' & Hk' & He & Hl1' & Hget); [done | done | |].
  { rewrite getAll_setKeysItem. unfold ids. rewrite fmap_app, fmap_cons.
    apply elem_of_app. right. left. }
  unfold ApiKeyManager.getActiveKey. rewrite Hget. f_equal.
  rewrite getAll_setKeysItem in Hk'.
  assert (e = new) as ->; [|done].
  assert (Hnew : id new = i) by done.
  clear -Hk' He Hl1 Hl1' Hnew. revert l1' Hk' Hl1'.
  induction l1 as [|x l1 IH]; intros l1' Hk' Hl1'.
  - destruct l1' as [|y l1']; simpl in Hk'; [congruence|].
    injection Hk' as <- _. destruct Hl1'. left.
  - change (ids (x :: l1)) with (id x :: ids l1) in Hl1.
    apply not_elem_of_cons in Hl1 as [Hx Hl1].
    destruct l1' as [|y l1']; simpl in Hk'.
    + injection Hk' as -> _. congruence.
    + injection Hk' as <- Hk'. apply (IH Hl1 l1' Hk').
      change (ids (x :: l1')) with (id x :: ids l1') in Hl1'.
      by apply not_elem_of_cons in Hl1' as [_ ?].
Qed.

(** X5. [setActive] with an id that is not stored returns false and writes
    nothing. With a stored id it returns true, keeps the entries and makes
    [getActive] return the first entry of that id, and [getActiveKey] its
    secret; but an entry whose id is the empty string can be made active
    without [getActive] ever returning it. *)
Theorem setActive_then_getActive (i : string) (ls : LocalStorage) :
  let keys := ApiKeyManager.getAll ls in
  let result := ApiKeyManager.setActive i ls in
  (i ∉ ids keys -> result = (false, ls)) /\
  (i ∈ ids keys ->
     result.1 = true /\
     ApiKeyManager.getAll result.2 = keys /\
     ApiKeyManager.getActiveId result.2 = Some i /\
     (i <> "" ->
        exists l1 e l2,
          keys = l1 ++ e :: l2 /\ id e = i /\ (i ∉ ids l1) /\
          ApiKeyManager.getActive result.2 = Some e /\
          ApiKeyManager.getActiveKey result.2 = Some (key e)) /\
     (i = "" -> ApiKeyManager.getActive result.2 = None)).
Proof.
  intros keys result. subst keys result. split; [apply setActive_absent|].
  intros Hin. rewrite setActive_present by done. cbn [fst snd].
  split_and!; [done | done | done | |].
  - intros Hi.
    destruct (getActive_resolves (setActiveItem i ls) i eq_refl Hi Hin)
      as (l1 & e & l2 & Hk & He & Hl1 & Hget).
    exists l1, e, l2. split_and!; [done..|].
    unfold ApiKeyManager.getActiveKey. by rewrite Hget.
  - by intros ->.
Qed.

(** X6. After [delete(id)] no entry has that id, so that a second
    [delete(id)] returns false and writes nothing. *)
Theorem delete_twice (i : string) (ls : LocalStorage) :
  let once := (ApiKeyManager.delete i ls).2 in
  (i ∉ ids (ApiKeyManager.getAll once)) /\
  ApiKeyManager.delete i once = (false, once).
Proof.
  intros once. subst once.
  assert (Hgone : i ∉ ids (ApiKeyManager.getAll (ApiKeyManager.delete i ls).2)).
  { destruct (decide (i ∈ ids (ApiKeyManager.getAll ls))) as [Hin|Hnin].
    - rewrite delete_present by done. cbn [snd]. rewrite getAll_stored.
      intros [_ Hne]%others_ids. done.
    - by rewrite delete_absent. }
  split; [done | by apply delete_absent].
Qed.

(** X7. [getActive] returns [null] exactly when the active id is absent,
    is the empty string, or is the id of no stored entry; what it returns
    otherwise is a stored entry with the active id, and [getActiveKey] is
    its secret. *)
Theorem getActive_spec (ls : LocalStorage) :
  (ApiKeyManager.getActive ls = None <->
     ApiKeyManager.getActiveId ls = None \/
     ApiKeyManager.getActiveId ls = Some "" \/
     exists a, ApiKeyManager.getActiveId ls = Some a /\
               a ∉ ids (ApiKeyManager.getAll ls)) /\
  (forall e, ApiKeyManager.getActive ls = Some e ->
     e ∈ ApiKeyManager.getAll ls /\ ApiKeyManager.getActiveId ls = Some (id e)) /\
  ApiKeyManager.getActiveKey ls = key <$> ApiKeyManager.getActive ls.
Proof.
  split_and!.
  - unfold ApiKeyManager.getActive.
    destruct (ApiKeyManager.getActiveId ls) as [a|] eqn:Hact; [|by intuition].
    destruct a as [|c a]; simpl; [by intuition|].
    destruct (decide (String c a ∈ ids (ApiKeyManager.getAll ls))) as [Hin|Hnin].
    + destruct (find_first_split _ _ Hin) as (l1 & e & l2 & _ & _ & _ & -> & _).
      split; [done|]. intros [?|[?|(a' & [= <-] & Hn)]]; done.
    + destruct (find_absent _ _ Hnin) as [-> _]. split; [|done].
      intros _. right. right. by exists (String c a).
  - intros e. unfold ApiKeyManager.getActive.
    destruct (ApiKeyManager.getActiveId ls) as [a|]; [|done].
    destruct (JsString.truthy a); [|done].
    intros [Hin He]%List.find_some. apply bool_decide_eq_true in He.
    split; [by apply list_elem_of_In | by rewrite He].
  - unfold ApiKeyManager.getActiveKey. by destruct (ApiKeyManager.getActive ls).
Qed.

(** *** What every sequence of operations keeps *)

Lemma wellKept_setActive i ls :
  wellKept ls -> wellKept (ApiKeyManager.setActive i ls).2.
Proof.
  intros [Hids Hact]. destruct (decide (i ∈ ids (ApiKeyManager.getAll ls))) as [Hin|Hnin].
  - rewrite setActive_present by done. split; [done|]. intros _. by exists i.
  - by rewrite setActive_absent.
Qed.

Lemma wellKept_add now rnd now' nm k ls :
  wellKept ls -> wellKept (ApiKeyManager.add now rnd now' nm k ls).2.
Proof.
  intros [Hids Hact]. rewrite add_closed. cbn zeta. cbn [snd].
  set (e := {| id := _; name := _; key := _; createdAt := _ |}).
  split; rewrite getAll_stored.
  - intros x [Hx|Hx]%elem_of_app; [by apply Hids|].
    apply list_elem_of_singleton in Hx as ->. apply freshId_not_empty.
  - intros _. unfold ApiKeyManager.getActiveId. cbn [ACTIVE_KEY_ID].
    destruct (ApiKeyManager.getAll ls) as [|first rest] eqn:Hkeys.
    + exists (id e). split; [done|]. simpl. left.
    + destruct (Hact ltac:(done)) as (a & Ha & Hin). exists a. split; [done|].
      unfold ids. rewrite fmap_app. apply elem_of_app. by left.
Qed.

Lemma wellKept_update i nm k ls :
  wellKept ls -> wellKept (ApiKeyManager.update i nm k ls).2.
Proof.
  intros [Hids Hact]. destruct (decide (i ∈ ids (ApiKeyManager.getAll ls))) as [Hin|Hnin].
  2:{ by rewrite update_absent. }
  destruct (update_present i nm k ls Hin) as (l1 & old & l2 & Hk & Hold & Hl1 & ->).
  cbn [snd]. split; rewrite getAll_setKeysItem.
  - intros x Hx.
    apply elem_of_app in Hx as [Hx|Hx];
      [apply Hids; rewrite Hk; apply elem_of_app; by left|].
    apply elem_of_cons in Hx as [->|Hx].
    + simpl. rewrite <- Hold. apply Hids. rewrite Hk. apply elem_of_app. right. left.
    + apply Hids. rewrite Hk. apply elem_of_app. right. by right.
  - intros _. destruct Hact as (a & Ha & Hina); [by rewrite Hk; destruct l1|].
    exists a. split; [done|]. rewrite Hk in Hina.
    unfold ids in *. rewrite !fmap_app, !fmap_cons in *. simpl. by rewrite <- Hold.
Qed.

Lemma wellKept_delete i ls :
  wellKept ls -> wellKept (ApiKeyManager.delete i ls).2.
Proof.
  intros [Hids Hact]. destruct (decide (i ∈ ids (ApiKeyManager.getAll ls))) as [Hin|Hnin].
  2:{ by rewrite delete_absent. }
  rewrite delete_present by done. cbn [snd]. split; rewrite getAll_stored.
  - intros x Hx. apply Hids. unfold others in Hx.
    apply list_elem_of_In, List.filter_In in Hx as [Hx _]. by apply list_elem_of_In.
  - intros Hne. unfold ApiKeyManager.getActiveId. cbn [ACTIVE_KEY_ID].
    case_bool_decide as Hdel.
    + destruct (others i (ApiKeyManager.getAll ls)) as [|first rest]; [done|].
      exists (id first). split; [done|]. simpl. left.
    + destruct Hact as (a & Ha & Hina).
      { intros Hnil. rewrite Hnil in Hin. by apply elem_of_nil in Hin. }
      exists a. split; [done|]. apply others_ids. split; [done|].
      unfold ApiKeyManager.getActiveId in Ha. congruence.
Qed.

Lemma wellKept_applyOp op ls : wellKept ls -> wellKept (applyOp op ls).
Proof.
  intros Hk. destruct op; simpl.
  - by apply wellKept_add.
  - by apply wellKept_update.
  - by apply wellKept_delete.
  - by apply wellKept_setActive.
  - split; [by intros e ?%elem_of_nil | done].
Qed.

(** X8. Starting from the empty store, after each operation of any
    sequence of [add], [update], [delete], [setActive] and [clearAll], a
    store that holds entries has an active entry: whenever [hasKeys] is true,
    [getActive] returns a stored entry and [getActiveKey] its secret. *)
Theorem keys_imply_active_entry (ops : list StoreOp) :
  Forall (fun ls =>
            ApiKeyManager.hasKeys ls = true ->
            exists e, e ∈ ApiKeyManager.getAll ls /\
                      ApiKeyManager.getActive ls = Some e /\
                      ApiKeyManager.getActiveKey ls = Some (key e))
         (statesAfter ops emptyStorage).
Proof.
  assert (Hgen : forall ls, wellKept ls -> Forall wellKept (statesAfter ops ls)).
  { induction ops as [|op ops IH]; intros ls Hk; simpl; [done|].
    pose proof (wellKept_applyOp op ls Hk). constructor; [done | by apply IH]. }
  eapply Forall_impl; [apply Hgen; split; [by intros e ?%elem_of_nil | done]|].
  intros ls [Hids Hact] Hhas. simpl in Hhas.
  unfold ApiKeyManager.hasKeys in Hhas. apply Nat.ltb_lt in Hhas.
  destruct Hact as (a & Ha & Hin).
  { intros Hnil. rewrite Hnil in Hhas. simpl in Hhas. lia. }
  assert (Hne : a <> "").
  { unfold ids in Hin. apply list_elem_of_fmap in Hin as (e & -> & He). by apply Hids. }
  destruct (getActive_resolves ls a Ha Hne Hin) as (l1 & e & l2 & Hk & He & _ & Hget).
  exists e. split_and!; [|done|].
  - rewrite Hk. apply elem_of_app. right. left.
  - unfold ApiKeyManager.getActiveKey. by rewrite Hget.
Qed.

(** X9. Entries keep pairwise distinct ids: no operation breaks it as long
    as each [add] draws an id that is not stored yet. *)
Theorem distinct_ids_kept (op : StoreOp) (ls : LocalStorage) :
  NoDup (ids (ApiKeyManager.getAll ls)) ->
  drawsFreshId op ls ->
  NoDup (ids (ApiKeyManager.getAll (applyOp op ls))).
Proof.
  intros Hnd Hfresh. destruct op; cbn [applyOp drawsFreshId] in *.
  - rewrite add_closed. cbn zeta. cbn [snd]. rewrite getAll_stored.
    unfold ids. rewrite fmap_app. apply NoDup_app. split_and!; [done | |].
    + intros x Hx [->|[]%elem_of_nil]%elem_of_cons. done.
    + apply NoDup_singleton.
  - destruct (decide (i ∈ ids (ApiKeyManager.getAll ls))) as [Hin|Hnin].
    + destruct (update_present i nm k ls Hin) as (l1 & old & l2 & Hk & Hold & Hl1 & ->).
      cbn [snd]. rewrite getAll_setKeysItem. rewrite Hk in Hnd.
      unfold ids in *. rewrite !fmap_app, !fmap_cons in *. simpl. by rewrite <- Hold.
    + by rewrite update_absent.
  - destruct (decide (i ∈ ids (ApiKeyManager.getAll ls))) as [Hin|Hnin].
    + rewrite delete_present by done. cbn [snd]. rewrite getAll_stored.
      clear -Hnd. unfold others, ids in *.
      induction (ApiKeyManager.getAll ls) as [|x l IH]; simpl; [constructor|].
      rewrite fmap_cons in Hnd. apply NoDup_cons in Hnd as [Hx Hl].
      destruct (negb _); [|by apply IH].
      rewrite fmap_cons. apply NoDup_cons. split; [|by apply IH].
      intros Hin. apply Hx. apply list_elem_of_fmap in Hin as (y & -> & Hy).
      apply list_elem_of_fmap. exists y. split; [done|].
      apply list_elem_of_In, List.filter_In in Hy as [Hy _]. by apply list_elem_of_In.
    + by rewrite delete_absent.
  - destruct (decide (i ∈ ids (ApiKeyManager.getAll ls))) as [Hin|Hnin].
    + by rewrite setActive_present.
    + by rewrite setActive_absent.
  - constructor.
Qed.

(** * Further properties of the rotation *)

(** [tryRotateApiKey] either writes nothing and returns false, or makes a
    stored entry with another id the active one and returns true. *)
Lemma tryRotate_cases ls :
  tryRotateApiKey ls = (false, ls) \/
  exists nextKey,
    nextKey ∈ ApiKeyManager.getAll ls /\
    Some (id nextKey) <> ApiKeyManager.getActiveId ls /\
    tryRotateApiKey ls = (true, setActiveItem (id nextKey) ls).
Proof.
  unfold tryRotateApiKey. destruct (_ <=? 1)%nat; [by left|].
  destruct (ApiKeyManager.getAll ls !! _) as [nextKey|] eqn:Hnext; [|by left].
  case_bool_decide as Hsame; [by left|]. right. exists nextKey.
  apply list_elem_of_lookup_2 in Hnext. split_and!; [done..|]. simpl.
  rewrite setActive_present; [done|].
  unfold ids. apply list_elem_of_fmap. by exists nextKey.
Qed.

(** X10. [tryRotateApiKey] never changes the stored entries. When it
    returns true the active id has changed and is now the id of a stored
    entry; when it returns false the storage is left as it was. *)
Theorem rotate_moves_pointer_only (ls : LocalStorage) :
  let result := tryRotateApiKey ls in
  ApiKeyManager.getAll result.2 = ApiKeyManager.getAll ls /\
  (result.1 = true ->
     ApiKeyManager.getActiveId result.2 <> ApiKeyManager.getActiveId ls /\
     activeResolves result.2) /\
  (result.1 = false -> result.2 = ls).
Proof.
  intros result. subst result.
  destruct (tryRotate_cases ls) as [->|(nextKey & Hin & Hne & ->)]; cbn [fst snd].
  - done.
  - split_and!; [done | | done]. intros _. split; [done|].
    unfold activeResolves. simpl. unfold ids. apply list_elem_of_fmap. by exists nextKey.
Qed.

(** X11. With two entries or more and an active id that is unset or is the
    id of no stored entry, [tryRotateApiKey] returns true and makes the first
    stored entry the active one. *)
Theorem rotate_from_unresolved_pointer (ls : LocalStorage) :
  (2 <= length (ApiKeyManager.getAll ls))%nat ->
  (forall e, e ∈ ApiKeyManager.getAll ls -> Some (id e) <> ApiKeyManager.getActiveId ls) ->
  exists first rest,
    ApiKeyManager.getAll ls = first :: rest /\
    tryRotateApiKey ls = (true, setActiveItem (id first) ls).
Proof.
  intros Hlen Hunres.
  destruct (ApiKeyManager.getAll ls) as [|first rest] eqn:Hkeys; [simpl in Hlen; lia|].
  exists first, rest. split; [done|].
  unfold tryRotateApiKey. rewrite Hkeys.
  destruct (Nat.leb_spec (length (first :: rest)) 1) as [?|_]; [lia|].
  assert (Hfind : ApiKeyManager.findIndex
            (fun k => bool_decide (Some (id k) = ApiKeyManager.getActiveId ls))
            (first :: rest) = -1).
  { unfold ApiKeyManager.findIndex.
    assert (list_find
              (fun k => bool_decide (Some (id k) = ApiKeyManager.getActiveId ls) = true)
              (first :: rest) = None) as ->; [|done].
    apply list_find_None, Forall_forall. intros e He Hp.
    apply bool_decide_eq_true in Hp. by apply (Hunres e). }
  rewrite Hfind.
  replace (Z.to_nat (Z.rem (-1 + 1) (Z.of_nat (length (first :: rest))))) with O.
  2:{ change (-1 + 1) with 0. by rewrite Z.rem_0_l by (simpl; lia). }
  simpl. rewrite bool_decide_eq_false_2 by (apply Hunres; left). simpl.
  rewrite setActive_present; [done|]. rewrite Hkeys. simpl. left.
Qed.

(** * The sleep budget *)

Lemma pow2_step a : 1 <= a -> 2 ^ a = 2 * 2 ^ (a - 1).
Proof.
  intros Ha. replace a with (Z.succ (a - 1)) at 1 by lia. apply Z.pow_succ_r. lia.
Qed.

Lemma sleepBudgetFrom_0 maxRetries baseDelay :
  sleepBudgetFrom maxRetries baseDelay 0 = sleepBudget maxRetries baseDelay.
Proof. unfold sleepBudgetFrom, sleepBudget. simpl. lia. Qed.

Lemma sleepBudgetFrom_step maxRetries baseDelay attempt :
  0 <= attempt ->
  sleepBudgetFrom maxRetries baseDelay attempt =
    totalSleep (backoff baseDelay attempt) + 5000 * (attempt + 1) +
    sleepBudgetFrom maxRetries baseDelay (attempt + 1).
Proof.
  intros Ha. unfold sleepBudgetFrom. rewrite totalSleep_backoff.
  destruct (Z.leb_spec (attempt + 1) 0) as [?|_]; [lia|].
  replace (attempt + 1 - 1) with attempt by lia.
  destruct (Z.leb_spec attempt 0) as [H0|H1].
  - assert (attempt = 0) as -> by lia. simpl. lia.
  - destruct (Z.ltb_spec 0 attempt) as [_|?]; [|lia].
    rewrite (pow2_step attempt) by lia. lia.
Qed.

Lemma sleepBudgetFrom_last maxRetries baseDelay attempt :
  0 <= attempt -> attempt = maxRetries - 1 ->
  sleepBudgetFrom maxRetries baseDelay attempt = totalSleep (backoff baseDelay attempt).
Proof.
  intros Ha ->. unfold sleepBudgetFrom. rewrite totalSleep_backoff.
  destruct (Z.leb_spec (maxRetries - 1) 0) as [H0|H1].
  - assert (maxRetries = 1) as -> by lia. simpl. lia.
  - destruct (Z.ltb_spec 0 (maxRetries - 1)) as [_|?]; [|lia].
    rewrite (pow2_step (maxRetries - 1)) by lia. lia.
Qed.

Lemma sleepBudgetFrom_nonneg maxRetries baseDelay attempt :
  0 <= baseDelay -> 0 <= attempt <= maxRetries - 1 ->
  0 <= sleepBudgetFrom maxRetries baseDelay attempt.
Proof.
  intros Hb Ha. unfold sleepBudgetFrom.
  assert (H1 : (if attempt <=? 0 then 1 else 2 ^ (attempt - 1)) <= 2 ^ (maxRetries - 1)).
  { destruct (Z.leb_spec attempt 0).
    - assert (0 < 2 ^ (maxRetries - 1)) by (apply Z.pow_pos_nonneg; lia). lia.
    - apply Z.pow_le_mono_r; lia. }
  assert (H2 : attempt * (attempt + 1) <= (maxRetries - 1) * maxRetries) by nia.
  nia.
Qed.

Lemma totalSleep_backoff_nonneg baseDelay attempt :
  0 <= baseDelay -> 0 <= totalSleep (backoff baseDelay attempt).
Proof.
  intros Hb. rewrite totalSleep_backoff. destruct (0 <? attempt); [|lia].
  apply Z.mul_nonneg_nonneg; [done|]. apply Z.pow_nonneg. lia.
Qed.

(** * Further properties of the executor *)

Section RunProperties.

Context {R T : Type}.
Variable apiCall : Operation R T.
Variables maxRetries baseDelay : Z.

(** The trace of a pass: the backoff, the requests of the attempt, the
    attempt, and a tail; either the pass writes nothing and the tail is
    empty, or, before the last pass, it rotates once, and sleeps the
    cooldown when the rotation returned false. *)
Lemma pass_trace attempt (w : World R) :
  let p := pass apiCall maxRetries baseDelay attempt w in
  exists sent x tail,
    sent = (apiCall (storage w) (backend w)).2 /\
    p.2 = backoff baseDelay attempt ++ (EvRemote <$> sent) ++ [EvAttempt x] ++ tail /\
    ((storage p.1.2 = storage w /\ tail = []) \/
     (attempt < maxRetries - 1 /\
      tryRotateApiKey (storage w) = (true, storage p.1.2) /\ tail = [EvRotate true]) \/
     (attempt < maxRetries - 1 /\
      tryRotateApiKey (storage w) = (false, storage p.1.2) /\
      tail = [EvRotate false; EvSleep (5000 * (attempt + 1))])).
Proof.
  intros p. subst p.
  destruct (apiCall (storage w) (backend w)) as [[[v|e] r] sent] eqn:Hcall.
  - rewrite (pass_returns _ _ _ _ _ _ _ _ Hcall). exists sent, None, [].
    cbn [fst snd storage]. split_and!; [done | by rewrite app_nil_r | by left].
  - rewrite (pass_throws _ _ _ _ _ _ _ _ Hcall). exists sent, (Some e).
    destruct (decide (attempt = maxRetries - 1)) as [Hlast|Hne].
    { rewrite onError_last by done. exists []. split_and!; [done | done | by left]. }
    destruct (isRateLimitError e) eqn:He.
    2:{ rewrite onError_other by done. exists []. split_and!; [done | done | by left]. }
    destruct (decide (attempt < maxRetries - 1)) as [Hlt|Hge].
    + rewrite onError_rate_limited by done. cbn [storage backend].
      destruct (tryRotateApiKey (storage w)) as [[|] ls'] eqn:Hrot; cbn [fst snd storage].
      * exists [EvRotate true]. split_and!; [done | done |]. right. by left.
      * exists [EvRotate false; EvSleep (5000 * (attempt + 1))].
        split_and!; [done | done |]. right. by right.
    + unfold onError, bind, ret, throw. rewrite He.
      destruct (Z.ltb_spec attempt (maxRetries - 1)) as [?|_]; [lia|].
      destruct (Z.eqb_spec attempt (maxRetries - 1)) as [?|_]; [lia|].
      exists []. split_and!; [done | done | by left].
Qed.

Lemma totalSleep_pass_trace attempt sent x tail :
  totalSleep (backoff baseDelay attempt ++ (EvRemote <$> sent) ++ [EvAttempt x] ++ tail) =
  totalSleep (backoff baseDelay attempt) + totalSleep tail.
Proof. autorewrite with trace. unfold totalSleep at 2. simpl. lia. Qed.

Lemma rotations_pass_trace attempt sent x tail :
  rotations (backoff baseDelay attempt ++ (EvRemote <$> sent) ++ [EvAttempt x] ++ tail) =
  rotations tail.
Proof. by autorewrite with trace. Qed.

(** X12. A run ends in one of two ways. It returns what an attempt
    returned: that attempt is the last one made, every earlier attempt
    failed, and fewer than [maxRetries] attempts failed. Or it throws: every
    one of exactly [maxRetries] attempts failed. With [maxRetries <= 0] it
    throws [undefined] without calling the operation. *)
Theorem retry_outcomes (w : World R) :
  let run := executeWithRetry apiCall maxRetries baseDelay w in
  match run.1.1 with
  | Normal _ =>
      exists errs, attempts run.2 = (Some <$> errs) ++ [None] /\
                   (length errs < Z.to_nat maxRetries)%nat
  | Throw e =>
      exists errs, attempts run.2 = Some <$> errs /\
                   length errs = Z.to_nat maxRetries /\
                   (maxRetries <= 0 -> run = (Throw JsUndefined, w, []))
  end.
Proof.
  intros run. subst run. unfold executeWithRetry.
  destruct (decide (maxRetries <= 0)) as [Hle|Hgt].
  { replace (Z.to_nat maxRetries) with O by lia. simpl. by exists []. }
  pose proof (retryLoop_shape apiCall maxRetries baseDelay (Z.to_nat maxRetries)
                0 JsUndefined w ltac:(lia)) as Hshape.
  cbn zeta in Hshape.
  destruct (retryLoop _ _ _ _ _ _ _) as [[[v|e] w'] t]; cbn [fst snd] in *; [done|].
  destruct Hshape as [(Hz & _)|(errs & Ht & Hlen)]; [lia|].
  exists (errs ++ [e]). rewrite fmap_app, length_app. simpl.
  split_and!; [done | lia | lia].
Qed.

Lemma rotations_only_writes left : forall attempt lastError (w : World R),
  let run := retryLoop apiCall maxRetries baseDelay left attempt lastError w in
  let rotated := rotateTimes (length (rotations run.2)) (storage w) in
  rotated.2 = storage run.1.2 /\ rotated.1.*1 = rotations run.2.
Proof.
  induction left as [|left IH]; intros attempt lastError w; [done|].
  cbn zeta. rewrite retryLoop_step.
  destruct (pass_trace attempt w) as (sent & x & tail & _ & Ht & Hcases).
  destruct (pass _ _ _ _ _) as [[c w1] t1]. cbn [fst snd] in *. subst t1.
  assert (Htail : let rotated := rotateTimes (length (rotations tail)) (storage w) in
                  rotated.2 = storage w1 /\ rotated.1.*1 = rotations tail).
  { destruct Hcases as [[Hw ->]|[(_ & Hrot & ->)|(_ & Hrot & ->)]]; simpl.
    - done.
    - by rewrite Hrot.
    - by rewrite Hrot. }
  destruct c as [[v|e]|e]; cbn [fst snd]; rewrite ?rotations_pass_trace; [done| |done].
  specialize (IH (attempt + 1) e w1). cbn zeta in IH.
  destruct (retryLoop _ _ _ _ _ _ _) as [[c2 w2] t2]. cbn [fst snd] in *.
  rewrite rotations_app, rotations_pass_trace, length_app.
  destruct Hcases as [[Hw ->]|[(_ & Hrot & ->)|(_ & Hrot & ->)]]; simpl.
  - by rewrite Hw in IH.
  - rewrite Hrot. destruct (rotateTimes _ (storage w1)) as [l ls2].
    cbn [fst snd] in *. destruct IH as [IH1 IH2].
    split; [done | by rewrite fmap_cons, IH2].
  - rewrite Hrot. destruct (rotateTimes _ (storage w1)) as [l ls2].
    cbn [fst snd] in *. destruct IH as [IH1 IH2].
    split; [done | by rewrite fmap_cons, IH2].
Qed.

Lemma rotations_bounded left : forall attempt lastError (w : World R),
  Z.of_nat left = maxRetries - attempt ->
  (length (rotations
             (retryLoop apiCall maxRetries baseDelay left attempt lastError w).2)
   <= left - 1)%nat.
Proof.
  induction left as [|left IH]; intros attempt lastError w Hleft; [simpl; lia|].
  rewrite retryLoop_step.
  destruct (pass_trace attempt w) as (sent & x & tail & _ & Ht & Hcases).
  destruct (pass_shape apiCall maxRetries baseDelay attempt w) as (x' & _ & Hc).
  destruct (pass _ _ _ _ _) as [[c w1] t1]. cbn [fst snd] in *. subst t1.
  assert (Htail : (length (rotations tail) <= 1)%nat /\
                  (rotations tail <> [] -> (1 <= left)%nat)).
  { destruct Hcases as [[Hw ->]|[(? & _ & ->)|(? & _ & ->)]]; simpl; split; (done || lia). }
  destruct Htail as [Hone Hroom].
  destruct c as [[v|e]|e]; cbn [fst snd]; rewrite ?rotations_pass_trace.
  - destruct (rotations tail); [simpl; lia|]. specialize (Hroom ltac:(done)). simpl in *. lia.
  - destruct Hc as [_ Hne].
    specialize (IH (attempt + 1) e w1 ltac:(lia)).
    destruct (retryLoop _ _ _ _ _ _ _) as [[c2 w2] t2]. cbn [fst snd] in *.
    rewrite rotations_app, rotations_pass_trace, length_app. lia.
  - destruct (rotations tail); [simpl; lia|]. specialize (Hroom ltac:(done)). simpl in *. lia.
Qed.

Lemma rotateTimes_frame n : forall ls,
  ApiKeyManager.getAll (rotateTimes n ls).2 = ApiKeyManager.getAll ls /\
  (activeResolves ls -> activeResolves (rotateTimes n ls).2) /\
  (Forall (fun b => b = false) (rotateTimes n ls).1.*1 -> (rotateTimes n ls).2 = ls).
Proof.
  induction n as [|n IH]; intros ls; [done|]. cbn [rotateTimes].
  destruct (tryRotate_cases ls) as [->|(nextKey & Hin & Hne & ->)].
  - destruct (IH ls) as (H1 & H2 & H3).
    destruct (rotateTimes n ls) as [rest ls2]. cbn [fst snd] in *.
    split_and!; [done | done |]. rewrite fmap_cons. intros [_ ?]%Forall_cons. by apply H3.
  - destruct (IH (setActiveItem (id nextKey) ls)) as (H1 & H2 & H3).
    destruct (rotateTimes n _) as [rest ls2]. cbn [fst snd] in *.
    split_and!; [done | |].
    + intros _. apply H2. unfold activeResolves. simpl.
      unfold ids. apply list_elem_of_fmap. by exists nextKey.
    + rewrite fmap_cons. by intros [? _]%Forall_cons.
Qed.

(** X13. The only writes of a run are its rotations: the storage after it
    is the storage after as many calls of [tryRotateApiKey] as the trace
    shows, with the results the trace shows, and there are at most
    [maxRetries - 1] of them. So a run never changes the stored entries,
    keeps an active id that is unset or stored so, and leaves the storage as
    it was when no rotation returned true. *)
Theorem run_writes_only_rotations (w : World R) :
  let run := executeWithRetry apiCall maxRetries baseDelay w in
  let rotated := rotateTimes (length (rotations run.2)) (storage w) in
  storage run.1.2 = rotated.2 /\
  rotations run.2 = rotated.1.*1 /\
  (length (rotations run.2) <= Z.to_nat maxRetries - 1)%nat /\
  ApiKeyManager.getAll (storage run.1.2) = ApiKeyManager.getAll (storage w) /\
  (activeResolves (storage w) -> activeResolves (storage run.1.2)) /\
  (Forall (fun b => b = false) (rotations run.2) -> storage run.1.2 = storage w).
Proof.
  intros run rotated. subst run rotated. unfold executeWithRetry.
  set (run := retryLoop apiCall maxRetries baseDelay (Z.to_nat maxRetries) 0 JsUndefined w).
  pose proof (rotations_only_writes (Z.to_nat maxRetries) 0 JsUndefined w) as Hw.
  cbn zeta in Hw. fold run in Hw. destruct Hw as [Hst Hrot].
  pose proof (rotateTimes_frame (length (rotations run.2)) (storage w)) as (H1 & H2 & H3).
  rewrite Hst in H1, H2, H3. rewrite Hrot in H3.
  split_and!; [done | done | | done | done | done].
  subst run.
  destruct (decide (0 <= maxRetries)) as [Hpos|Hneg].
  - apply rotations_bounded. lia.
  - replace (Z.to_nat maxRetries) with O by lia. simpl. lia.
Qed.

Lemma sleep_bounded_from left : forall attempt lastError (w : World R),
  0 <= baseDelay -> 0 <= attempt -> Z.of_nat left = maxRetries - attempt ->
  let run := retryLoop apiCall maxRetries baseDelay left attempt lastError w in
  0 <= totalSleep run.2 /\
  (left = O -> totalSleep run.2 = 0) /\
  ((1 <= left)%nat -> totalSleep run.2 <= sleepBudgetFrom maxRetries baseDelay attempt).
Proof.
  induction left as [|left IH]; intros attempt lastError w Hb Ha Hleft run; subst run.
  { simpl. unfold totalSleep. simpl. split_and!; [done | done | lia]. }
  rewrite retryLoop_step.
  destruct (pass_trace attempt w) as (sent & x & tail & _ & Ht & Hcases).
  destruct (pass_shape apiCall maxRetries baseDelay attempt w) as (x' & _ & Hc).
  destruct (pass _ _ _ _ _) as [[c w1] t1]. cbn [fst snd] in *. subst t1.
  pose proof (totalSleep_backoff_nonneg baseDelay attempt Hb) as Hbo.
  assert (Htail : 0 <= totalSleep tail /\
                  (attempt = maxRetries - 1 -> totalSleep tail = 0) /\
                  totalSleep tail <= 5000 * (attempt + 1)).
  { destruct Hcases as [[_ ->]|[(? & _ & ->)|(? & _ & ->)]];
      unfold totalSleep; simpl; lia. }
  destruct Htail as (Ht0 & Htlast & Htmax).
  assert (Hpass : 0 <= totalSleep (backoff baseDelay attempt) + totalSleep tail /\
                  totalSleep (backoff baseDelay attempt) + totalSleep tail
                  <= sleepBudgetFrom maxRetries baseDelay attempt).
  { split; [lia|]. destruct (decide (attempt = maxRetries - 1)) as [Hlast|Hne].
    - rewrite sleepBudgetFrom_last by done. rewrite Htlast by done. lia.
    - rewrite sleepBudgetFrom_step by done.
      pose proof (sleepBudgetFrom_nonneg maxRetries baseDelay (attempt + 1) Hb ltac:(lia)).
      lia. }
  destruct c as [[v|e]|e]; cbn [fst snd]; rewrite ?totalSleep_pass_trace.
  - split_and!; [lia | done | lia].
  - destruct Hc as [_ Hne].
    specialize (IH (attempt + 1) e w1 Hb ltac:(lia) ltac:(lia)). cbn zeta in IH.
    destruct (retryLoop _ _ _ _ _ _ _) as [[c2 w2] t2]. cbn [fst snd] in *.
    destruct IH as (IH0 & _ & IHmax). specialize (IHmax ltac:(lia)).
    rewrite totalSleep_app, totalSleep_pass_trace, sleepBudgetFrom_step by done.
    split_and!; [lia | done | lia].
  - split_and!; [lia | done | lia].
Qed.

(** X14. With a base delay that is not negative and at least one attempt
    allowed, the time a run sleeps is at most the budget
    [baseDelay * (2^(maxRetries-1) - 1) + 2500 * maxRetries * (maxRetries - 1)],
    whatever the operation does. *)
Theorem sleep_within_budget (w : World R) :
  0 <= baseDelay ->
  1 <= maxRetries ->
  let run := executeWithRetry apiCall maxRetries baseDelay w in
  0 <= totalSleep run.2 <= sleepBudget maxRetries baseDelay.
Proof.
  intros Hb Hmax run. subst run. unfold executeWithRetry.
  destruct (sleep_bounded_from (Z.to_nat maxRetries) 0 JsUndefined w Hb ltac:(lia)
              ltac:(lia)) as (H0 & _ & H1).
  rewrite sleepBudgetFrom_0 in H1. split; [done | apply H1; lia].
Qed.

End RunProperties.

Section Failover.

Context {R T : Type}.
Variable apiCall : Operation R T.
Variables maxRetries baseDelay : Z.

(** X15. With two or more credentials of pairwise distinct ids, the
    active one at position [i], and an operation whose every attempt fails
    with a rate limit: each of the [maxRetries - 1] rotations returns true,
    so that no cooldown is slept and the suspension between attempt [n - 1]
    and attempt [n] is the backoff [baseDelay * 2^(n-2)] alone; the entries
    are kept and the active credential ends [maxRetries - 1] positions
    further in stored order, cyclically. *)
Theorem failover_round_robin (w : World R) (i : nat) (a : string) :
  let keys := ApiKeyManager.getAll (storage w) in
  0 <= maxRetries ->
  NoDup (ids keys) ->
  (2 <= length keys)%nat ->
  ApiKeyManager.getActiveId (storage w) = Some a ->
  ids keys !! i = Some a ->
  alwaysFails true apiCall ->
  let run := executeWithRetry apiCall maxRetries baseDelay w in
  rotations run.2 = replicate (Z.to_nat (maxRetries - 1)) true /\
  (forall n, 2 <= n <= maxRetries ->
     suspensionBefore n run.2 = Some (baseDelay * 2 ^ (n - 2))) /\
  ApiKeyManager.getAll (storage run.1.2) = keys /\
  ApiKeyManager.getActiveId (storage run.1.2) =
    ids keys !! ((i + Z.to_nat (maxRetries - 1)) mod length keys)%nat.
Proof.
  intros keys Hmax Hnd Hlen Hact Hi Hfail run. subst run.
  destruct (failing_run apiCall maxRetries baseDelay
              (fun w' => ApiKeyManager.getAll (storage w') = keys /\
                         exists j b, ids keys !! j = Some b /\
                                     ApiKeyManager.getActiveId (storage w') = Some b)
              (fun _ => [EvRotate true])
              [true])
    with (w := w) as (_ & _ & _ & Hrot & _ & Hgap); try done.
  - intros attempt w0 (Hkeys0 & j & b & Hj & Hb) Hatt.
    destruct (Hfail (storage w0) (backend w0)) as (e & r & sent & Hcall & He).
    rewrite (pass_throws _ _ _ _ _ _ _ _ Hcall).
    destruct (Z.eqb_spec attempt (maxRetries - 1)) as [Hlast|Hne].
    + exists e, (mkWorld (storage w0) r), sent. rewrite onError_last by done.
      split; [|done]. split; [done|]. by exists j, b.
    + rewrite onError_rate_limited by (done || lia). cbn [storage backend].
      destruct (tryRotate_step (storage w0) j b) as (b' & Hb' & ->);
        rewrite ?Hkeys0; try done.
      exists e, (mkWorld (setActiveItem b' (storage w0)) r), sent.
      split; [|done]. split; [done|]. rewrite Hkeys0 in Hb'. by eexists _, b'.
  - split; [done|]. by exists i, a.
  - rewrite mjoin_replicate_singleton in Hrot.
    pose proof (rotations_only_writes apiCall maxRetries baseDelay
                  (Z.to_nat maxRetries) 0 JsUndefined w) as Hw.
    cbn zeta in Hw. fold (executeWithRetry apiCall maxRetries baseDelay) in Hw.
    destruct Hw as [Hst _]. rewrite Hrot, length_replicate in Hst.
    destruct (rotateTimes_spec (Z.to_nat (maxRetries - 1)) (storage w) i a
                Hnd Hlen Hi Hact) as (_ & Hall & Hfinal).
    fold keys in Hall, Hfinal. rewrite Hst in Hall, Hfinal.
    split_and!; [done | | done | done].
    intros n Hn. rewrite Hgap by done. f_equal. unfold totalSleep. simpl. lia.
Qed.

End Failover.

(** * Further properties of the generation façade *)

Lemma remoteCalls_app t1 t2 : remoteCalls (t1 ++ t2) = remoteCalls t1 ++ remoteCalls t2.
Proof. apply omap_app. Qed.

Lemma remoteCalls_remote sent : remoteCalls (EvRemote <$> sent) = sent.
Proof. induction sent as [|k sent IH]; [done | simpl; f_equal; exact IH]. Qed.

Lemma remoteCalls_backoff baseDelay attempt : remoteCalls (backoff baseDelay attempt) = [].
Proof. unfold backoff. by destruct (0 <? attempt). Qed.

Lemma tryRotate_getAll ls :
  ApiKeyManager.getAll (tryRotateApiKey ls).2 = ApiKeyManager.getAll ls.
Proof. by destruct (tryRotate_cases ls) as [->|(nextKey & _ & _ & ->)]. Qed.

Section RequestsOfARun.

Context {R T : Type}.
Variable apiCall : Operation R T.
Variables maxRetries baseDelay : Z.

(** What holds of every request the operation sends, as long as the stored
    entries are [keys], holds of every request of a run. *)
Lemma requests_of_run (P : string -> Prop) (keys : list ApiKeyEntry) :
  (forall ls r, ApiKeyManager.getAll ls = keys -> Forall P (apiCall ls r).2) ->
  forall left attempt lastError (w : World R),
    ApiKeyManager.getAll (storage w) = keys ->
    Forall P (remoteCalls (retryLoop apiCall maxRetries baseDelay left attempt lastError w).2).
Proof.
  intros Hop. induction left as [|left IH]; intros attempt lastError w Hkeys; [constructor|].
  rewrite retryLoop_step.
  destruct (pass_trace apiCall maxRetries baseDelay attempt w)
    as (sent & x & tail & Hsent & Ht & Hcases).
  destruct (pass _ _ _ _ _) as [[c w1] t1]. cbn [fst snd] in *. subst t1.
  assert (Hpass : Forall P (remoteCalls
            (backoff baseDelay attempt ++ (EvRemote <$> sent) ++ [EvAttempt x] ++ tail))).
  { rewrite !remoteCalls_app, remoteCalls_backoff, remoteCalls_remote.
    replace (remoteCalls tail) with (@nil string)
      by (by destruct Hcases as [[_ ->]|[(_ & _ & ->)|(_ & _ & ->)]]).
    simpl. rewrite app_nil_r, Hsent. by apply Hop. }
  assert (Hkeys1 : ApiKeyManager.getAll (storage w1) = keys).
  { destruct Hcases as [[-> _]|[(_ & Hrot & _)|(_ & Hrot & _)]]; [done| |];
      rewrite <- Hkeys, <- (tryRotate_getAll (storage w)); by rewrite Hrot. }
  destruct c as [[v|e]|e]; cbn [snd]; [done| |done].
  specialize (IH (attempt + 1) e w1 Hkeys1).
  destruct (retryLoop _ _ _ _ _ _ _) as [[c2 w2] t2]. cbn [snd] in *.
  rewrite remoteCalls_app. by apply Forall_app.
Qed.

Lemma attempts_bounded (w : World R) :
  (length (attempts (executeWithRetry apiCall maxRetries baseDelay w).2)
   <= Z.to_nat maxRetries)%nat.
Proof.
  unfold executeWithRetry. destruct (decide (maxRetries <= 0)) as [Hle|Hgt].
  { replace (Z.to_nat maxRetries) with O by lia. simpl. lia. }
  pose proof (retryLoop_shape apiCall maxRetries baseDelay (Z.to_nat maxRetries)
                0 JsUndefined w ltac:(lia)) as Hshape.
  cbn zeta in Hshape.
  destruct (retryLoop _ _ _ _ _ _ _) as [[[v|e] w'] t]; cbn [fst snd] in *.
  - destruct Hshape as (errs & -> & Hlen).
    rewrite length_app, length_fmap. simpl. lia.
  - destruct Hshape as [(_ & _ & ->)|(errs & -> & Hlen)]; [simpl; lia|].
    rewrite length_app, length_fmap. simpl. lia.
Qed.

End RequestsOfARun.

(** The active entry in a store of distinct ids. *)
Lemma getActive_at ls i e :
  NoDup (ids (ApiKeyManager.getAll ls)) ->
  ApiKeyManager.getAll ls !! i = Some e ->
  ApiKeyManager.getActiveId ls = Some (id e) ->
  id e <> "" ->
  ApiKeyManager.getActive ls = Some e /\ ApiKeyManager.getActiveKey ls = Some (key e).
Proof.
  intros Hnd Hi Hact Hid.
  assert (Hin : id e ∈ ids (ApiKeyManager.getAll ls)).
  { unfold ids. apply list_elem_of_fmap. exists e. split; [done|].
    by apply list_elem_of_lookup_2 in Hi. }
  destruct (getActive_resolves ls (id e) Hact Hid Hin) as (l1 & e' & l2 & Hk & He' & _ & Hget).
  assert (e' = e) as ->.
  { assert (Hi' : ApiKeyManager.getAll ls !! length l1 = Some e').
    { rewrite Hk. by rewrite list_lookup_middle. }
    assert (length l1 = i) as <-; [|congruence].
    apply (NoDup_lookup _ _ _ (id e) Hnd); unfold ids; rewrite list_lookup_fmap.
    - rewrite Hi'. simpl. by rewrite He'.
    - by rewrite Hi. }
  split; [done|]. unfold ApiKeyManager.getActiveKey. by rewrite Hget.
Qed.

Lemma getActiveKey_stored ls k :
  ApiKeyManager.getActiveKey ls = Some k ->
  exists e, e ∈ ApiKeyManager.getAll ls /\ key e = k.
Proof.
  unfold ApiKeyManager.getActiveKey, ApiKeyManager.getActive.
  destruct (ApiKeyManager.getActiveId ls) as [a|]; [|done].
  destruct (JsString.truthy a); [|done].
  destruct (List.find _ _) as [e|] eqn:Hfind; [|done]. intros [= <-].
  apply List.find_some in Hfind as [Hin _]. exists e. split; [by apply list_elem_of_In | done].
Qed.

Lemma tryCatch_absent {R A} (m : Exec R (option A)) (w : World R) :
  let run := tryCatch m (fun _ => ret None) w in
  (exists v, run.1.1 = Normal v) /\ run.1.2 = (m w).1.2 /\ run.2 = (m w).2.
Proof.
  unfold tryCatch, ret. destruct (m w) as [[[v|e] w1] t1]; cbn [fst snd].
  - split; [by eexists | done].
  - split; [by eexists | by rewrite app_nil_r].
Qed.

Section FacadeRequests.

Context {R Designs Abstract : Type}.
Variable requestDesigns : string -> R -> Completion Designs * R.
Variable requestImage : string -> R -> Completion (option string) * R.
Variable requestDocumentation : string -> R -> Completion (option string) * R.
Variable requestAbstract : string -> R -> Completion (option Abstract) * R.

Lemma withKey_sent {T} (request : string -> R -> Completion T * R) k ls r :
  (withKey request k ls r).2 = [k].
Proof. unfold withKey. by destruct (request k r). Qed.

Lemma checked_closure_sent {T} (request : string -> R -> Completion T * R) ls r :
  Forall (fun k => k <> "" /\ exists e, e ∈ ApiKeyManager.getAll ls /\ key e = k)
    (ifKey (ApiKeyManager.getActiveKey ls)
       (Throw (newError NO_API_KEY), r, [])
       (fun apiKey => withKey request apiKey ls r)).2.
Proof.
  destruct (ApiKeyManager.getActiveKey ls) as [k|] eqn:Hkey; [|constructor].
  destruct k as [|c k]; [constructor|]. simpl. rewrite withKey_sent.
  constructor; [|constructor]. split; [done | by apply getActiveKey_stored].
Qed.

(** X16. [generatePartDocumentation] and [generateRealPartAbstract] never
    throw and make at most 2 attempts; every request they send carries the
    secret that was active when they were called, also after a rotation has
    made another credential the active one. *)
Theorem documentation_requests_keep_first_key (w : World R) :
  let documentation := generatePartDocumentation requestDocumentation w in
  let abstract := generateRealPartAbstract requestAbstract w in
  let startKey k := ApiKeyManager.getActiveKey (storage w) = Some k /\ k <> "" in
  ((exists v, documentation.1.1 = Normal v) /\
   (length (attempts documentation.2) <= 2)%nat /\
   Forall startKey (remoteCalls documentation.2)) /\
  ((exists v, abstract.1.1 = Normal v) /\
   (length (attempts abstract.2) <= 2)%nat /\
   Forall startKey (remoteCalls abstract.2)).
Proof.
  assert (Hgen : forall A (request : string -> R -> Completion (option A) * R),
            let run :=
              bind readActiveKey
                (fun apiKey =>
                   ifKey apiKey (ret None)
                     (fun apiKey =>
                        tryCatch (executeWithRetry (withKey request apiKey) 2 1500)
                          (fun _ => ret None))) w in
            (exists v, run.1.1 = Normal v) /\
            (length (attempts run.2) <= 2)%nat /\
            Forall (fun k => ApiKeyManager.getActiveKey (storage w) = Some k /\ k <> "")
              (remoteCalls run.2)).
  { intros A request. unfold bind, readActiveKey. cbn [fst snd].
    destruct (ApiKeyManager.getActiveKey (storage w)) as [k|] eqn:Hkey.
    2:{ simpl. split_and!; [by eexists | lia | constructor]. }
    destruct k as [|c k].
    { simpl. split_and!; [by eexists | lia | constructor]. }
    cbn [ifKey JsString.truthy].
    destruct (tryCatch_absent (executeWithRetry (withKey request (String c k)) 2 1500) w)
      as (Hv & _ & Ht).
    destruct (tryCatch _ _ w) as [[c' w'] t']. cbn [fst snd] in *. subst t'.
    split_and!; [done | apply (attempts_bounded _ 2) |].
    apply (requests_of_run _ 2 1500 _ (ApiKeyManager.getAll (storage w))); [|done].
    intros ls r _. rewrite withKey_sent. by repeat constructor. }
  split; [apply (Hgen _ requestDocumentation) | apply (Hgen _ requestAbstract)].
Qed.

(** X17. Every request that [generateDesigns] and [generateImageForDesign]
    send carries a secret that is not empty and is that of a stored entry;
    they make at most 3 and at most 2 attempts, and
    [generateImageForDesign] never throws. *)
Theorem designs_requests_use_stored_secrets (w : World R) :
  let designs := generateDesigns requestDesigns w in
  let image := generateImageForDesign requestImage w in
  let stored k :=
    k <> "" /\ exists e, e ∈ ApiKeyManager.getAll (storage w) /\ key e = k in
  Forall stored (remoteCalls designs.2) /\
  (length (attempts designs.2) <= 3)%nat /\
  Forall stored (remoteCalls image.2) /\
  (length (attempts image.2) <= 2)%nat /\
  (exists v, image.1.1 = Normal v).
Proof.
  cbn zeta.
  assert (Hop : forall T (request : string -> R -> Completion T * R) ls r,
            ApiKeyManager.getAll ls = ApiKeyManager.getAll (storage w) ->
            Forall (fun k => k <> "" /\
                      exists e, e ∈ ApiKeyManager.getAll (storage w) /\ key e = k)
              (ifKey (ApiKeyManager.getActiveKey ls)
                 (Throw (newError NO_API_KEY), r, [])
                 (fun apiKey => withKey request apiKey ls r)).2).
  { intros T request ls r Hsame. rewrite <- Hsame. apply checked_closure_sent. }
  split_and!.
  - apply (requests_of_run _ 3 3000 _ (ApiKeyManager.getAll (storage w))); [|done].
    intros ls r. apply Hop.
  - apply (attempts_bounded _ 3).
  - unfold generateImageForDesign.
    destruct (tryCatch_absent
                (executeWithRetry
                   (fun ls r =>
                      ifKey (ApiKeyManager.getActiveKey ls)
                        (Throw (newError NO_API_KEY), r, [])
                        (fun apiKey => withKey requestImage apiKey ls r)) 2 2000) w)
      as (_ & _ & ->).
    apply (requests_of_run _ 2 2000 _ (ApiKeyManager.getAll (storage w))); [|done].
    intros ls r. apply Hop.
  - unfold generateImageForDesign.
    destruct (tryCatch_absent
                (executeWithRetry
                   (fun ls r =>
                      ifKey (ApiKeyManager.getActiveKey ls)
                        (Throw (newError NO_API_KEY), r, [])
                        (fun apiKey => withKey requestImage apiKey ls r)) 2 2000) w)
      as (_ & _ & ->).
    apply (attempts_bounded _ 2).
  - apply tryCatch_absent.
Qed.

(** X18. Failover in [generateDesigns]. In a store of pairwise distinct,
    non-empty ids whose active entry and the next one in cyclic stored order
    have non-empty secrets: when the request sent with the active secret is
    answered by a rate limit and the request sent with the next secret is
    answered, the call returns that answer after exactly these two requests,
    one rotation and one sleep of 3000, and the next entry is left active. *)
Theorem generateDesigns_failover (w : World R) (i : nat) (ea eb : ApiKeyEntry)
    (e : JsValue) (r1 r2 : R) (v : Designs) :
  let keys := ApiKeyManager.getAll (storage w) in
  NoDup (ids keys) ->
  (2 <= length keys)%nat ->
  keys !! i = Some ea ->
  keys !! (S i mod length keys)%nat = Some eb ->
  ApiKeyManager.getActiveId (storage w) = Some (id ea) ->
  id ea <> "" -> id eb <> "" -> key ea <> "" -> key eb <> "" ->
  requestDesigns (key ea) (backend w) = (Throw e, r1) ->
  isRateLimitError e = true ->
  requestDesigns (key eb) r1 = (Normal v, r2) ->
  generateDesigns requestDesigns w =
    (Normal v, mkWorld (setActiveItem (id eb) (storage w)) r2,
     [EvRemote (key ea); EvAttempt (Some e); EvRotate true; EvSleep 3000;
      EvRemote (key eb); EvAttempt None]).
Proof.
  intros keys Hnd Hlen Hi Hnext Hact Hida Hidb Hka Hkb Hreq1 He Hreq2. subst keys.
  destruct (getActive_at (storage w) i ea Hnd Hi Hact Hida) as [_ Hkey1].
  destruct (tryRotate_step (storage w) i (id ea) Hnd Hlen) as (b & Hb & Hrot); [|done|].
  { unfold ids. by rewrite list_lookup_fmap, Hi. }
  assert (b = id eb) as ->.
  { unfold ids in Hb. rewrite list_lookup_fmap, Hnext in Hb. by injection Hb. }
  destruct (getActive_at (setActiveItem (id eb) (storage w)) _ eb Hnd Hnext eq_refl Hidb)
    as [_ Hkey2].
  unfold generateDesigns, executeWithRetry. change (Z.to_nat 3) with 3%nat.
  set (op := fun ls r => _).
  assert (Hop1 : op (storage w) (backend w) = (Throw e, r1, [key ea])).
  { subst op. cbn beta. rewrite Hkey1. unfold ifKey.
    apply truthy_spec in Hka. rewrite Hka. unfold withKey. by rewrite Hreq1. }
  assert (Hop2 : op (setActiveItem (id eb) (storage w)) r1 = (Normal v, r2, [key eb])).
  { subst op. cbn beta. rewrite Hkey2. unfold ifKey.
    apply truthy_spec in Hkb. rewrite Hkb. unfold withKey. by rewrite Hreq2. }
  rewrite retryLoop_step.
  rewrite (pass_throws op 3 3000 0 w e r1 [key ea] Hop1).
  rewrite onError_rate_limited by (done || lia). cbn [storage backend].
  rewrite Hrot. cbv iota beta.
  rewrite retryLoop_step.
  rewrite (pass_returns op 3 3000 (0 + 1)
             (mkWorld (setActiveItem (id eb) (storage w)) r1) v r2 [key eb] Hop2).
  reflexivity.
Qed.

End FacadeRequests.

(** * The cleaning of a model answer ([cleanJsonResponse]) *)

Lemma append_cons (x : ascii) (a b : string) :
  String x a +:+ b = String x (a +:+ b).
Proof. reflexivity. Qed.

Lemma append_assoc (a b c : string) : (a +:+ b) +:+ c = a +:+ (b +:+ c).
Proof. induction a as [|x a IH]; [done | rewrite !append_cons; by f_equal]. Qed.

Lemma append_nil_r (a : string) : a +:+ "" = a.
Proof. induction a as [|x a IH]; [done | rewrite append_cons; by f_equal]. Qed.

Lemma occursIn_infix pat before s after :
  occursIn pat s -> occursIn pat (before +:+ s +:+ after).
Proof.
  intros (b & a & ->). exists (before +:+ b), (a +:+ after).
  by rewrite !append_assoc.
Qed.

Lemma trimStart_suffix s : exists ws, s = ws +:+ JsString.trimStart s.
Proof.
  induction s as [|c s [ws IH]]; simpl; [by exists ""|].
  destruct (JsString.isWhiteSpace c); [|by exists ""].
  exists (String c ws). rewrite append_cons. by f_equal.
Qed.

Lemma trimEnd_prefix s : exists ws, s = JsString.trimEnd s +:+ ws.
Proof.
  induction s as [|c s [ws IH]]; simpl; [by exists ""|].
  destruct (JsString.trimEnd s) as [|d t] eqn:Ht.
  - destruct (JsString.isWhiteSpace c).
    + exists (String c s). done.
    + exists ws. rewrite append_cons. by f_equal.
  - exists ws. rewrite append_cons. by f_equal.
Qed.

Lemma occursIn_trim pat s : occursIn pat (JsString.trim s) -> occursIn pat s.
Proof.
  intros H. unfold JsString.trim in H.
  destruct (trimStart_suffix s) as [ws1 H1].
  destruct (trimEnd_prefix (JsString.trimStart s)) as [ws2 H2].
  rewrite H1, H2. by apply occursIn_infix.
Qed.

Lemma trimStart_head s c rest :
  JsString.trimStart s = String c rest -> JsString.isWhiteSpace c = false.
Proof.
  induction s as [|d s IH]; simpl; [done|].
  destruct (JsString.isWhiteSpace d) eqn:Hd; [done|]. by intros [= <- _].
Qed.

Lemma trimEnd_head c rest :
  JsString.isWhiteSpace c = false ->
  exists rest', JsString.trimEnd (String c rest) = String c rest'.
Proof.
  intros Hc. simpl. destruct (JsString.trimEnd rest); [|by eexists].
  rewrite Hc. by eexists.
Qed.

Lemma trimEnd_last t pre c :
  JsString.trimEnd t = pre +:+ String c "" -> JsString.isWhiteSpace c = false.
Proof.
  revert pre. induction t as [|d t IH]; intros pre; simpl.
  - by destruct pre.
  - destruct (JsString.trimEnd t) as [|x t'] eqn:Ht.
    + destruct (JsString.isWhiteSpace d) eqn:Hd; [by destruct pre|].
      destruct pre as [|y pre]; simpl; [by intros [= <-]|].
      intros [= _ H]. by destruct pre.
    + destruct pre as [|y pre]; simpl; [done|].
      intros [= _ H]. by apply (IH pre).
Qed.

(** The result of [trim] neither begins nor ends with white space. *)
Lemma trim_ends s :
  (forall c rest, JsString.trim s = String c rest -> JsString.isWhiteSpace c = false) /\
  (forall pre c, JsString.trim s = pre +:+ String c "" -> JsString.isWhiteSpace c = false).
Proof.
  unfold JsString.trim. split.
  - intros c rest H. destruct (JsString.trimStart s) as [|d t] eqn:Hs; [done|].
    pose proof (trimStart_head s d t Hs) as Hd.
    destruct (trimEnd_head d t Hd) as [rest' Hr]. rewrite Hr in H.
    by injection H as <- _.
  - intros pre c. apply trimEnd_last.
Qed.

Lemma removeAllFrom_drop pat s : forall k,
  JsString.removeAllFrom pat k s = JsString.removeAll pat (dropStr k s).
Proof.
  induction s as [|c s IH]; intros [|k]; try done. simpl. apply IH.
Qed.

Lemma removeAll_cons pat c s :
  JsString.removeAll pat (String c s) =
    if JsString.startsWith pat (String c s)
    then JsString.removeAll pat (dropStr (String.length pat - 1) s)
    else String c (JsString.removeAll pat s).
Proof.
  unfold JsString.removeAll at 1. cbn [JsString.removeAllFrom].
  by rewrite removeAllFrom_drop.
Qed.

(** Text without the first code unit of the pattern is kept as it is. *)
Lemma removeAll_lacks p pat a b :
  lacks p a ->
  JsString.removeAll (String p pat) (a +:+ b) = a +:+ JsString.removeAll (String p pat) b.
Proof.
  induction a as [|c a IH]; [done|]. intros [Hc Ha].
  rewrite !append_cons, removeAll_cons. cbn [JsString.startsWith].
  destruct (ascii_dec p c) as [->|_]; [done|]. by rewrite IH.
Qed.

Lemma startsWith_fence s :
  JsString.startsWith "```" s = true <-> (3 <= leadingTicks s)%nat.
Proof.
  destruct s as [|a [|b [|c s]]]; cbn [JsString.startsWith leadingTicks];
    repeat match goal with
           | |- context [ascii_dec ?x ?y] =>
               destruct (ascii_dec x y); subst; try congruence
           end;
    split; (done || lia).
Qed.

Lemma leadingTicks_drop3 s :
  (3 <= leadingTicks s)%nat -> leadingTicks (dropStr 3 s) = (leadingTicks s - 3)%nat.
Proof.
  destruct s as [|a [|b [|c s]]]; cbn [leadingTicks dropStr];
    repeat match goal with
           | |- context [ascii_dec ?x ?y] =>
               destruct (ascii_dec x y); subst; try congruence
           end;
    lia.
Qed.

Lemma length_dropStr n : forall s,
  (String.length (dropStr n s) <= String.length s)%nat.
Proof.
  induction n as [|n IH]; intros [|c s]; simpl; try lia. specialize (IH s). lia.
Qed.

Lemma removeAll_fence_ticks n : forall s,
  (String.length s <= n)%nat ->
  (leadingTicks (JsString.removeAll "```" s) <= leadingTicks s)%nat /\
  (leadingTicks (JsString.removeAll "```" s) < 3)%nat /\
  JsString.includes "```" (JsString.removeAll "```" s) = false.
Proof.
  assert (Hnil : (leadingTicks (JsString.removeAll "```" "") <= leadingTicks "")%nat /\
                 (leadingTicks (JsString.removeAll "```" "") < 3)%nat /\
                 JsString.includes "```" (JsString.removeAll "```" "") = false).
  { cbn. split_and!; [lia | lia | done]. }
  induction n as [|n IH]; intros s Hlen.
  { destruct s; [exact Hnil | simpl in Hlen; lia]. }
  destruct s as [|c s]; [exact Hnil|]. clear Hnil. simpl in Hlen.
  rewrite removeAll_cons.
  destruct (JsString.startsWith "```" (String c s)) eqn:Hfence.
  - apply startsWith_fence in Hfence.
    change (dropStr (String.length "```" - 1) s) with (dropStr 3 (String c s)).
    pose proof (length_dropStr 3 (String c s)) as Hd. simpl in Hd.
    assert (Hshort : (String.length (dropStr 3 (String c s)) <= n)%nat).
    { destruct s as [|b [|a s]]; simpl in *; lia. }
    destruct (IH _ Hshort) as (H1 & H2 & H3).
    rewrite leadingTicks_drop3 in H1 by done. split_and!; [lia | done | done].
  - destruct (IH s ltac:(lia)) as (H1 & H2 & H3).
    assert (Hticks : (leadingTicks (String c (JsString.removeAll "```" s))
                      <= leadingTicks (String c s))%nat).
    { simpl. destruct (ascii_dec c "`"); lia. }
    assert (Hlt : (leadingTicks (String c s) < 3)%nat).
    { destruct (decide (3 <= leadingTicks (String c s))%nat) as [H|H]; [|lia].
      apply startsWith_fence in H. congruence. }
    split_and!; [done | lia |].
    cbn [JsString.includes]. rewrite H3, orb_false_r.
    destruct (JsString.startsWith "```" (String c (JsString.removeAll "```" s))) eqn:E;
      [|done].
    apply startsWith_fence in E. lia.
Qed.

(** X19. The text that [cleanJsonResponse] returns contains no code fence
    of three backticks, and neither begins nor ends with white space. *)
Theorem cleanJsonResponse_no_fence (text : string) :
  let cleaned := cleanJsonResponse text in
  ~ occursIn "```" cleaned /\
  (forall c rest, cleaned = String c rest -> JsString.isWhiteSpace c = false) /\
  (forall pre c, cleaned = pre +:+ String c "" -> JsString.isWhiteSpace c = false).
Proof.
  intros cleaned. subst cleaned. unfold cleanJsonResponse. split; [|apply trim_ends].
  intros Hocc%occursIn_trim. apply includes_spec in Hocc.
  destruct (removeAll_fence_ticks _ (JsString.removeAll "```json" text) (Nat.le_refl _))
    as (_ & _ & Hno).
  congruence.
Qed.

(** A pattern that is not at the head of a text is not at the head of the
    text followed by a code unit the pattern does not contain. *)
Lemma startsWith_app pat : forall body c t,
  lacks c pat ->
  JsString.startsWith pat body = false ->
  JsString.startsWith pat (body +:+ String c t) = false.
Proof.
  induction pat as [|p pat IH]; intros body c t Hl H; [done|].
  destruct Hl as [Hp Hl]. destruct body as [|b body].
  - change ("" +:+ String c t) with (String c t). cbn [JsString.startsWith].
    by destruct (ascii_dec p c).
  - rewrite append_cons. cbn [JsString.startsWith] in *.
    destruct (ascii_dec p b); [by apply IH | done].
Qed.

Lemma startsWith_same a pat s :
  JsString.startsWith (String a pat) (String a s) = JsString.startsWith pat s.
Proof. cbn [JsString.startsWith]. by destruct (ascii_dec a a). Qed.

Lemma removeAll_skip pat c s :
  JsString.startsWith pat (String c s) = false ->
  JsString.removeAll pat s = s ->
  JsString.removeAll pat (String c s) = String c s.
Proof. intros H1 H2. by rewrite removeAll_cons, H1, H2. Qed.

Lemma lacks_no_fence pat body :
  lacks "`" body -> JsString.removeAll (String "`" pat) body = body.
Proof.
  intros H. rewrite <- (append_nil_r body) at 1.
  rewrite removeAll_lacks by done. by rewrite append_nil_r.
Qed.

(** X20. A text without a backtick is only trimmed by [cleanJsonResponse];
    the same text inside a fence that is opened by three backticks and
    [json] and closed by three backticks gives the same result, and so does
    a fence opened by three backticks alone when the text does not itself
    begin with [json]. *)
Theorem cleanJsonResponse_unwraps (body : string) :
  lacks "`" body ->
  cleanJsonResponse body = JsString.trim body /\
  cleanJsonResponse ("```json" +:+ body +:+ "```") = JsString.trim body /\
  (JsString.startsWith "json" body = false ->
   cleanJsonResponse ("```" +:+ body +:+ "```") = JsString.trim body).
Proof.
  intros Hbody. unfold cleanJsonResponse.
  assert (Hclose : forall pat, JsString.removeAll (String "`" pat) (body +:+ "```")
                               = body +:+ JsString.removeAll (String "`" pat) "```").
  { intros pat. by apply removeAll_lacks. }
  split_and!.
  - rewrite (lacks_no_fence _ body Hbody). by rewrite (lacks_no_fence _ body Hbody).
  - change ("```json" +:+ body +:+ "```") with ("```json" +:+ (body +:+ "```")).
    assert (JsString.removeAll "```json" ("```json" +:+ (body +:+ "```"))
            = JsString.removeAll "```json" (body +:+ "```")) as -> by reflexivity.
    rewrite Hclose.
    assert (JsString.removeAll "```json" "```" = "```") as -> by reflexivity.
    rewrite Hclose.
    assert (JsString.removeAll "```" "```" = "") as -> by reflexivity.
    by rewrite append_nil_r.
  - intros Hjson.
    assert (Hrest : JsString.removeAll "```json" (body +:+ "```") = body +:+ "```").
    { rewrite Hclose. reflexivity. }
    assert (Hn0 : JsString.startsWith "json" (body +:+ "```") = false).
    { apply startsWith_app; [|done]. cbn. by split_and!. }
    assert (Hn : forall pat, JsString.startsWith pat "``" = false ->
                 JsString.startsWith (String "`" pat) (body +:+ "```") = false).
    { intros pat Hpat. destruct body as [|c body].
      - change ("" +:+ "```") with (String "`" "``"). by rewrite startsWith_same.
      - destruct Hbody as [Hc _]. rewrite append_cons. cbn [JsString.startsWith].
        by destruct (ascii_dec "`" c); [congruence|]. }
    assert (JsString.removeAll "```json" ("```" +:+ body +:+ "```")
            = "```" +:+ body +:+ "```") as ->.
    { change ("```" +:+ body +:+ "```") with
        (String "`" (String "`" (String "`" (body +:+ "```")))).
      repeat apply removeAll_skip; rewrite ?startsWith_same; try done.
      - by apply (Hn "json").
      - by apply (Hn "`json"). }
    assert (JsString.removeAll "```" ("```" +:+ body +:+ "```")
            = JsString.removeAll "```" (body +:+ "```")) as -> by reflexivity.
    rewrite Hclose.
    assert (JsString.removeAll "```" "```" = "") as -> by reflexivity.
    by rewrite append_nil_r.
Qed.

(** * The images of a model answer ([extractInlineImage]) *)

Lemma extractFromParts_head ps :
  extractFromParts ps = dataUrl <$> head (omap GenAI.inlineData ps).
Proof.
  induction ps as [|part ps IH]; [done|]. cbn [extractFromParts omap list_omap].
  by destruct (GenAI.inlineData part).
Qed.

Lemma head_app {A} (l1 l2 : list A) :
  head (l1 ++ l2) = match head l1 with Some x => Some x | None => head l2 end.
Proof. by destruct l1. Qed.

Lemma dataUrl_scheme d :
  JsString.startsWith "data:" (dataUrl d) = true /\ JsString.truthy (dataUrl d) = true.
Proof. done. Qed.

Lemma extractInlineImage_head (response : GenAI.Response) :
  extractInlineImage response = dataUrl <$> head (inlineImages response).
Proof.
  unfold extractInlineImage, inlineImages.
  induction (default [] (GenAI.candidates response)) as [|c cs IH]; [done|].
  cbn [extractFromCandidates]. rewrite bind_cons, head_app, extractFromParts_head, IH.
  by destruct (head (omap GenAI.inlineData (partsOf c))).
Qed.

Lemma extractInlineImage_scheme (response : GenAI.Response) img :
  extractInlineImage response = Some img ->
  JsString.startsWith "data:" img = true /\ JsString.truthy img = true.
Proof.
  rewrite extractInlineImage_head.
  destruct (head (inlineImages response)) as [d|]; [|done].
  intros [= <-]. apply dataUrl_scheme.
Qed.

(** X21. [extractInlineImage] returns the data URL of the first part that
    carries inline data, in the order of the candidates and of the parts of
    each, and [undefined] when no part carries any. What it returns begins
    with [data:], so that it is never an empty, falsy string. *)
Theorem extractInlineImage_first (response : GenAI.Response) :
  extractInlineImage response = dataUrl <$> head (inlineImages response) /\
  (extractInlineImage response = None <-> inlineImages response = []) /\
  (forall img, extractInlineImage response = Some img ->
               JsString.startsWith "data:" img = true /\ JsString.truthy img = true).
Proof.
  split_and!; [apply extractInlineImage_head | | apply extractInlineImage_scheme].
  rewrite extractInlineImage_head. by destruct (inlineImages response).
Qed.

(** * The key manager dialog *)

Lemma filledIn_add now rnd now' nm k ls :
  JsString.trim nm <> "" -> JsString.trim k <> "" ->
  filledIn ls -> filledIn (ApiKeyManager.add now rnd now' nm k ls).2.
Proof.
  intros Hnm Hk Hls e. rewrite add_closed. cbn zeta. cbn [snd]. rewrite getAll_stored.
  intros [He| ->%list_elem_of_singleton]%elem_of_app; [by apply Hls | done].
Qed.

Lemma filledIn_update i nm k ls :
  JsString.trim nm <> "" -> JsString.trim k <> "" ->
  filledIn ls -> filledIn (ApiKeyManager.update i nm k ls).2.
Proof.
  intros Hnm Hk Hls. destruct (decide (i ∈ ids (ApiKeyManager.getAll ls))) as [Hin|Hnin].
  - destruct (update_present i nm k ls Hin) as (l1 & old & l2 & Hkeys & _ & _ & ->).
    cbn [snd]. intros e. rewrite getAll_setKeysItem.
    intros [He|[->|He]%elem_of_cons]%elem_of_app; [|done|].
    + apply Hls. rewrite Hkeys. apply elem_of_app. by left.
    + apply Hls. rewrite Hkeys. apply elem_of_app. right. by right.
  - by rewrite update_absent.
Qed.

Lemma filledIn_delete i ls : filledIn ls -> filledIn (ApiKeyManager.delete i ls).2.
Proof.
  intros Hls. destruct (decide (i ∈ ids (ApiKeyManager.getAll ls))) as [Hin|Hnin].
  - rewrite delete_present by done. cbn [snd]. intros e. rewrite getAll_stored.
    unfold others. intros He%list_elem_of_In%List.filter_In.
    apply Hls. apply list_elem_of_In. tauto.
  - by rewrite delete_absent.
Qed.

Lemma filledIn_setActive i ls : filledIn ls -> filledIn (ApiKeyManager.setActive i ls).2.
Proof.
  intros Hls. destruct (decide (i ∈ ids (ApiKeyManager.getAll ls))) as [Hin|Hnin].
  - by rewrite setActive_present.
  - by rewrite setActive_absent.
Qed.

Lemma wellKept_rotate ls : wellKept ls -> wellKept (tryRotateApiKey ls).2.
Proof.
  intros [Hids Hact].
  destruct (tryRotate_cases ls) as [->|(nextKey & Hin & _ & ->)]; [done|].
  split; [done|]. intros _. exists (id nextKey). split; [done|].
  unfold ids. apply list_elem_of_fmap. by exists nextKey.
Qed.

(** Every use keeps the store well kept and filled in. *)
Lemma useStep_kept u d :
  wellKept d.2 /\ filledIn d.2 -> wellKept (useStep u d).2 /\ filledIn (useStep u d).2.
Proof.
  destruct d as [st ls]. cbn [snd]. intros [Hw Hf].
  destruct u as [a|]; cbn [useStep fst snd].
  2:{ split; [by apply wellKept_rotate|]. intros e. rewrite tryRotate_getAll. apply Hf. }
  destruct a; cbn [ApiKeyManagerComponent.perform fst snd]; try done.
  - unfold ApiKeyManagerComponent.handleAddKey.
    destruct (JsString.truthy (JsString.trim (ApiKeyManagerComponent.newKeyName st)))
      eqn:Hnm; [|done].
    destruct (JsString.truthy (JsString.trim (ApiKeyManagerComponent.newKeyValue st)))
      eqn:Hk; [|done].
    apply truthy_spec in Hnm, Hk. cbn [negb orb ApiKeyManagerComponent.loadKeys snd].
    split; [by apply wellKept_add | by apply filledIn_add].
  - unfold ApiKeyManagerComponent.handleDeleteKey. destruct confirmed; [|done].
    cbn [ApiKeyManagerComponent.loadKeys snd].
    split; [by apply wellKept_delete | by apply filledIn_delete].
  - unfold ApiKeyManagerComponent.handleSetActive.
    cbn [ApiKeyManagerComponent.loadKeys snd].
    split; [by apply wellKept_setActive | by apply filledIn_setActive].
  - unfold ApiKeyManagerComponent.handleSaveEdit.
    destruct (ApiKeyManagerComponent.editingId st) as [i|]; [|done].
    destruct (JsString.truthy i); [|done].
    destruct (JsString.truthy (JsString.trim (ApiKeyManagerComponent.editName st)))
      eqn:Hnm; [|done].
    destruct (JsString.truthy (JsString.trim (ApiKeyManagerComponent.editKey st)))
      eqn:Hk; [|done].
    apply truthy_spec in Hnm, Hk. cbn [andb ApiKeyManagerComponent.loadKeys snd].
    split; [by apply wellKept_update | by apply filledIn_update].
Qed.

Lemma useAll_kept us : forall d,
  wellKept d.2 /\ filledIn d.2 -> wellKept (useAll us d).2 /\ filledIn (useAll us d).2.
Proof.
  unfold useAll. induction us as [|u us IH]; intros d Hd; [done|].
  cbn [foldl]. by apply IH, useStep_kept.
Qed.

(** X22. Whatever is done in the dialog, and whenever the executor rotates
    in between, starting from the empty store: no stored entry has an empty
    name or an empty secret, and a store that holds entries has an active
    credential whose secret is not empty. *)
Theorem dialog_keeps_secrets_usable (us : list Use) (st : ApiKeyManagerComponent.State) :
  let ls := (useAll us (st, emptyStorage)).2 in
  filledIn ls /\
  (ApiKeyManager.hasKeys ls = true ->
   exists e, e ∈ ApiKeyManager.getAll ls /\ key e <> "" /\
             ApiKeyManager.getActiveKey ls = Some (key e)).
Proof.
  intros ls. subst ls.
  destruct (useAll_kept us (st, emptyStorage)) as [[Hids Hact] Hf].
  { split; [split|]; [by intros e ?%elem_of_nil | done | by intros e ?%elem_of_nil]. }
  split; [done|]. intros Hhas.
  unfold ApiKeyManager.hasKeys in Hhas. apply Nat.ltb_lt in Hhas.
  destruct Hact as (a & Ha & Hin).
  { intros Hnil. rewrite Hnil in Hhas. simpl in Hhas. lia. }
  assert (Hne : a <> "").
  { unfold ids in Hin. apply list_elem_of_fmap in Hin as (e & -> & He). by apply Hids. }
  destruct (getActive_resolves _ a Ha Hne Hin) as (l1 & e & l2 & Hk & He & _ & Hget).
  assert (Hstored : e ∈ ApiKeyManager.getAll (useAll us (st, emptyStorage)).2).
  { rewrite Hk. apply elem_of_app. right. left. }
  exists e. split_and!; [done | by apply Hf |].
  unfold ApiKeyManager.getActiveKey. by rewrite Hget.
Qed.

(** * The analysis of a product link ([analyzeProductLink]) *)

Section LinkAnalysisProperties.

Context {R Link : Type}.
Variable requestLink : string -> R -> Completion (option Link) * R.


End LinkAnalysisProperties.

(** * The icon of a category ([generateCategoryIcon], [generateSVGIcon]) *)

Section CategoryIconProperties.

Context {R : Type}.
Variable requestIcon : string -> R -> Completion GenAI.Response * R.
Variable requestIconFallback : string -> R -> Completion GenAI.Response * R.
Variable requestSvg : string -> R -> Completion (option string) * R.
Variable btoa : string -> string.

Lemma tryImage_scheme (request : string -> R -> Completion GenAI.Response * R) k r img r' :
  tryImage request k r = (Some img, r') -> JsString.startsWith "data:" img = true.
Proof.
  unfold tryImage. destruct (request k r) as [[response|e] r1]; [|done].
  destruct (extractInlineImage response) as [u|] eqn:Hu; [|done].
  destruct (JsString.truthy u); [|done]. intros [= <- _].
  by apply (extractInlineImage_scheme response).
Qed.

Lemma ifKey_usable {A} k (absent : A) present :
  k <> "" -> ifKey (Some k) absent present = present k.
Proof. intros Hk%truthy_spec. unfold ifKey. by rewrite Hk. Qed.

(** [generateSVGIcon] with a usable credential. *)
Lemma generateSVGIcon_usable ls r k :
  ApiKeyManager.getActiveKey ls = Some k -> k <> "" ->
  let out := generateSVGIcon requestSvg btoa ls r in
  out.2 = [k] /\
  (forall e, out.1.1 = Throw e -> requestSvg k r = (Throw e, out.1.2)) /\
  (forall img, out.1.1 = Normal (Some img) ->
     exists svg, img = "data:image/svg+xml;base64," +:+ btoa svg /\
                 JsString.startsWith "<svg" svg = true /\
                 ~ occursIn "```" svg).
Proof.
  intros Hkey Hk. cbn zeta. unfold generateSVGIcon. rewrite Hkey, ifKey_usable by done.
  destruct (requestSvg k r) as [[text|e] r'] eqn:Hreq; cbn [fst snd].
  2:{ split_and!; [done | by intros ? [= <-] | done]. }
  split_and!; [done | by destruct (JsString.startsWith _ _) |].
  intros img.
  set (inner := JsString.removeAll "```svg" (JsString.removeAll "```xml" (default "" text))).
  destruct (JsString.startsWith "<svg" _) eqn:Hsvg; [|done].
  intros [= <-]. eexists. split_and!; [done | exact Hsvg |].
  intros Hocc%occursIn_trim. apply includes_spec in Hocc.
  destruct (removeAll_fence_ticks _ inner (Nat.le_refl _)) as (_ & _ & Hno).
  congruence.
Qed.

(** The closure of [generateCategoryIcon] with a usable credential. *)
Lemma categoryIconCall_usable ls r k :
  ApiKeyManager.getActiveKey ls = Some k -> k <> "" ->
  let out := categoryIconCall requestIcon requestIconFallback requestSvg btoa ls r in
  (exists n, (1 <= n <= 3)%nat /\ out.2 = replicate n k) /\
  (forall e, out.1.1 = Throw e ->
     out.2 = [k; k; k] /\ exists r2, requestSvg k r2 = (Throw e, out.1.2)) /\
  (forall img, out.1.1 = Normal (Some img) -> JsString.startsWith "data:" img = true).
Proof.
  intros Hkey Hk. cbn zeta. unfold categoryIconCall. rewrite Hkey, ifKey_usable by done.
  destruct (tryImage requestIcon k r) as [[img|] r1] eqn:H1; cbn [fst snd].
  { split_and!; [exists 1%nat; split; [lia | done] | done |].
    intros ? [= <-]. by apply tryImage_scheme in H1. }
  destruct (tryImage requestIconFallback k r1) as [[img|] r2] eqn:H2; cbn [fst snd].
  { split_and!; [exists 2%nat; split; [lia | done] | done |].
    intros ? [= <-]. by apply tryImage_scheme in H2. }
  destruct (generateSVGIcon_usable ls r2 k Hkey Hk) as (Hsent & Hthrow & Himg).
  destruct (generateSVGIcon requestSvg btoa ls r2) as [[c3 r3] sent]. cbn [fst snd] in *.
  subst sent. split_and!.
  - exists 3%nat. split; [lia | done].
  - intros e He. split; [done|]. exists r2. by apply Hthrow.
  - intros img Hc. by destruct (Himg img Hc) as (svg & -> & _).
Qed.




End CategoryIconProperties.

(** * The analysis of a blueprint image ([analyzeImageWithAI]) *)

Section ImageAnalysisProperties.

Context {R Metadata Designs : Type}.
Variable requestAnalysis : string -> R -> Completion Metadata * R.
Variable requestDesigns : string -> R -> Completion Designs * R.

Lemma getActiveKey_entry ls k :
  ApiKeyManager.getActiveKey ls = Some k ->
  exists e, ApiKeyManager.getActive ls = Some e /\ key e = k.
Proof.
  unfold ApiKeyManager.getActiveKey.
  destruct (ApiKeyManager.getActive ls) as [e|]; [|done]. intros [= <-]. by exists e.
Qed.


End ImageAnalysisProperties.

(** * The further properties on the sample data *)

Lemma add_then_delete_witness :
  let added :=
    ApiKeyManager.add 1700000001000 "p3q4r5s6t" 1700000001000 " D " " secret-D " threeKeys in
  let deleted := ApiKeyManager.delete (id added.1) added.2 in
  (ApiKeyManager.freshId 1700000001000 "p3q4r5s6t" ∉ ids (ApiKeyManager.getAll threeKeys)) /\
  activeResolves threeKeys /\
  deleted.1 = true /\
  ApiKeyManager.getAll deleted.2 = ApiKeyManager.getAll threeKeys /\
  ApiKeyManager.getActiveId deleted.2 = ApiKeyManager.getActiveId threeKeys.
Proof.
  assert (Hfresh : ApiKeyManager.freshId 1700000001000 "p3q4r5s6t"
                     ∉ ids (ApiKeyManager.getAll threeKeys)) by compute_done.
  assert (Hact : activeResolves threeKeys) by (simpl; compute_done).
  split; [exact Hfresh|]. split; [exact Hact|].
  exact (add_then_delete 1700000001000 "p3q4r5s6t" 1700000001000 " D " " secret-D "
           threeKeys Hfresh Hact).
Defined.

Lemma update_active_key_witness :
  ApiKeyManager.getActiveId threeKeys = Some (id keyA) /\
  id keyA <> "" /\
  (id keyA ∈ ids (ApiKeyManager.getAll threeKeys)) /\
  ApiKeyManager.getActiveKey
    (ApiKeyManager.update (id keyA) "A" " secret-A2 " threeKeys).2 = Some "secret-A2".
Proof.
  assert (Hne : id keyA <> "") by done.
  assert (Hin : id keyA ∈ ids (ApiKeyManager.getAll threeKeys)) by compute_done.
  split; [reflexivity|]. split; [exact Hne|]. split; [exact Hin|].
  exact (update_active_key (id keyA) "A" " secret-A2 " threeKeys eq_refl Hne Hin).
Defined.

Lemma distinct_ids_kept_witness :
  let op := OpAdd 1700000001000 "p3q4r5s6t" 1700000001000 "D" "secret-D" in
  NoDup (ids (ApiKeyManager.getAll threeKeys)) /\
  drawsFreshId op threeKeys /\
  NoDup (ids (ApiKeyManager.getAll (applyOp op threeKeys))).
Proof.
  assert (Hnd : NoDup (ids (ApiKeyManager.getAll threeKeys))) by compute_done.
  assert (Hfresh : drawsFreshId
                     (OpAdd 1700000001000 "p3q4r5s6t" 1700000001000 "D" "secret-D")
                     threeKeys) by (simpl; compute_done).
  split; [exact Hnd|]. split; [exact Hfresh|].
  exact (distinct_ids_kept _ threeKeys Hnd Hfresh).
Defined.

Lemma rotate_from_unresolved_pointer_witness :
  (2 <= length (ApiKeyManager.getAll noPointer))%nat /\
  (forall e, e ∈ ApiKeyManager.getAll noPointer ->
             Some (id e) <> ApiKeyManager.getActiveId noPointer) /\
  tryRotateApiKey noPointer = (true, setActiveItem (id keyA) noPointer).
Proof.
  assert (Hlen : (2 <= length (ApiKeyManager.getAll noPointer))%nat) by (simpl; lia).
  assert (Hnone : forall e, e ∈ ApiKeyManager.getAll noPointer ->
                            Some (id e) <> ApiKeyManager.getActiveId noPointer)
    by (intros e _; discriminate).
  split; [exact Hlen|]. split; [exact Hnone|].
  destruct (rotate_from_unresolved_pointer noPointer Hlen Hnone)
    as (first & rest & Hkeys & Hrot).
  injection Hkeys as <- _. exact Hrot.
Defined.

Lemma sleep_within_budget_witness :
  let run := executeWithRetry rateLimited 3 3000 (mkWorld oneKey tt) in
  0 <= 3000 /\ 1 <= 3 /\
  0 <= totalSleep run.2 <= sleepBudget 3 3000.
Proof.
  split; [lia|]. split; [lia|].
  apply (sleep_within_budget rateLimited 3 3000 (mkWorld oneKey tt)); lia.
Defined.

Lemma failover_round_robin_witness :
  let w := mkWorld threeKeys tt in
  let run := executeWithRetry rateLimited 3 3000 w in
  NoDup (ids (ApiKeyManager.getAll threeKeys)) /\
  alwaysFails true rateLimited /\
  rotations run.2 = [true; true] /\
  suspensionBefore 2 run.2 = Some 3000 /\
  suspensionBefore 3 run.2 = Some 6000 /\
  ApiKeyManager.getActiveId (storage run.1.2) = Some (id keyC).
Proof.
  assert (Hnd : NoDup (ids (ApiKeyManager.getAll threeKeys))) by compute_done.
  assert (Hlen : (2 <= length (ApiKeyManager.getAll threeKeys))%nat) by (simpl; lia).
  destruct (failover_round_robin rateLimited 3 3000 (mkWorld threeKeys tt) 0 (id keyA)
              ltac:(lia) Hnd Hlen eq_refl eq_refl rateLimited_alwaysFails)
    as (H1 & H2 & _ & H4).
  split_and!; [exact Hnd | apply rateLimited_alwaysFails | exact H1
              | exact (H2 2 ltac:(lia)) | exact (H2 3 ltac:(lia)) | exact H4].
Defined.

Lemma generateDesigns_failover_witness :
  let w := mkWorld threeKeys tt in
  exhaustedFor "secret-A" 7%nat (key keyA) tt =
    (Throw (newError "429 Too Many Requests"), tt) /\
  isRateLimitError (newError "429 Too Many Requests") = true /\
  exhaustedFor "secret-A" 7%nat (key keyB) tt = (Normal 7%nat, tt) /\
  generateDesigns (exhaustedFor "secret-A" 7%nat) w =
    (Normal 7%nat, mkWorld (setActiveItem (id keyB) threeKeys) tt,
     [EvRemote (key keyA); EvAttempt (Some (newError "429 Too Many Requests"));
      EvRotate true; EvSleep 3000; EvRemote (key keyB); EvAttempt None]).
Proof.
  assert (Hnd : NoDup (ids (ApiKeyManager.getAll threeKeys))) by compute_done.
  assert (Hlen : (2 <= length (ApiKeyManager.getAll threeKeys))%nat) by (simpl; lia).
  split; [reflexivity|]. split; [reflexivity|]. split; [reflexivity|].
  exact (generateDesigns_failover (exhaustedFor "secret-A" 7%nat)
           (mkWorld threeKeys tt) 0 keyA keyB (newError "429 Too Many Requests") tt tt 7%nat
           Hnd Hlen eq_refl eq_refl eq_refl
           ltac:(done) ltac:(done) ltac:(done) ltac:(done)
           eq_refl eq_refl eq_refl).
Defined.

Lemma cleanJsonResponse_unwraps_witness :
  lacks "`" " [1, 2] " /\
  cleanJsonResponse " [1, 2] " = "[1, 2]" /\
  cleanJsonResponse "```json [1, 2] ```" = "[1, 2]" /\
  cleanJsonResponse "``` [1, 2] ```" = "[1, 2]".
Proof.
  assert (Hbody : lacks "`" " [1, 2] ") by (cbn; by repeat split).
  destruct (cleanJsonResponse_unwraps " [1, 2] " Hbody) as (H1 & H2 & H3).
  split_and!; [exact Hbody | exact H1 | exact H2 | exact (H3 eq_refl)].
Defined.

